(** * Account scheduling and resilient request execution

    A shallow embedding of [src/accounts.ts] (account selection and the three
    recording helpers) and of the endpoint/retry loop of [generateImage]
    ([src/api.ts]), together with the properties the specification states
    about them.

    Conventions of the embedding:
    - timestamps and durations are integer milliseconds, modelled as [Z];
    - [remainingFraction] is a finite JavaScript number, modelled as an exact
      rational [Q]; the only operation the code applies to it is [<=];
    - an optional field [f?: T] is an [option T]; JavaScript truthiness of an
      optional number ([x || 0], [x && ...]) is written out: both [undefined]
      and [0] are falsy;
    - [Date.now()] is read as one value [clock] for the duration of a
      (synchronous) call. *)

From Stdlib Require Import ZArith QArith Lia.
From stdpp Require Import base option list strings pretty.

Local Close Scope Q_scope.
Local Open Scope Z_scope.

(** ** JavaScript helpers *)

(** [x || d] for an optional number [x]: [undefined] and [0] are falsy. *)
Definition js_or (x : option Z) (d : Z) : Z :=
  match x with
  | Some v => if v =? 0 then d else v
  | None => d
  end.

(** [Array.prototype.sort(compareFn)]: a stable sort; [compareFn a b < 0]
    puts [a] first, and elements that compare equal keep their order. *)
Fixpoint sort_insert {A} (compareFn : A → A → Z) (x : A) (l : list A) : list A :=
  match l with
  | [] => [x]
  | y :: l' =>
      if compareFn x y <=? 0 then x :: y :: l'
      else y :: sort_insert compareFn x l'
  end.

Fixpoint js_sort {A} (compareFn : A → A → Z) (l : list A) : list A :=
  match l with
  | [] => []
  | x :: l' => sort_insert compareFn x (js_sort compareFn l')
  end.

(** ** types.ts *)

Record CachedImageQuota := {
  remainingFraction : Q;
  resetTime : option string;
  updatedAt : Z;
}.

Record Account := {
  email : string;
  refreshToken : string;
  accessToken : option string;
  projectId : option string;
  managedProjectId : option string;
  lastUsed : option Z;
  rateLimitedUntil : option Z;
  cachedImageQuota : option CachedImageQuota;
}.

Record AccountsConfig := {
  accounts : list Account;
}.

(** ** constants.ts *)

Definition SOFT_QUOTA_THRESHOLD : Q := (1 # 10)%Q.
Definition QUOTA_CACHE_TTL_MS : Z := 5 * 60 * 1000.
Definition CAPACITY_RETRY_COUNT : nat := 3.
Definition CAPACITY_RETRY_BASE_DELAY_MS : Z := 3000.
Definition IMAGE_GENERATION_TIMEOUT_MS : Z := 120000.
Definition CLOUDCODE_FALLBACK_URLS : list string :=
  [ "https://daily-cloudcode-pa.googleapis.com";
    "https://daily-cloudcode-pa.sandbox.googleapis.com";
    "https://cloudcode-pa.googleapis.com" ]%string.

(** ** accounts.ts *)

Definition MAX_RETRIES : nat := 3.
Definition RATE_LIMIT_COOLDOWN_MS : Z := 5 * 60 * 1000.

(** Field assignments on an account object. *)
Definition set_lastUsed (v : Z) (a : Account) : Account :=
  {| email := email a; refreshToken := refreshToken a;
     accessToken := accessToken a; projectId := projectId a;
     managedProjectId := managedProjectId a;
     lastUsed := Some v;
     rateLimitedUntil := rateLimitedUntil a;
     cachedImageQuota := cachedImageQuota a |}.

Definition set_rateLimitedUntil (v : Z) (a : Account) : Account :=
  {| email := email a; refreshToken := refreshToken a;
     accessToken := accessToken a; projectId := projectId a;
     managedProjectId := managedProjectId a;
     lastUsed := lastUsed a;
     rateLimitedUntil := Some v;
     cachedImageQuota := cachedImageQuota a |}.

Definition set_cachedImageQuota (q : CachedImageQuota) (a : Account) : Account :=
  {| email := email a; refreshToken := refreshToken a;
     accessToken := accessToken a; projectId := projectId a;
     managedProjectId := managedProjectId a;
     lastUsed := lastUsed a;
     rateLimitedUntil := rateLimitedUntil a;
     cachedImageQuota := Some q |}.

(** [isSoftQuotaExceeded(account)]; [clock] is the value of [Date.now()]. *)
Definition isSoftQuotaExceeded (clock : Z) (account : Account) : bool :=
  match cachedImageQuota account with
  | None => false
  | Some quota =>
      if clock - updatedAt quota >? QUOTA_CACHE_TTL_MS then false
      else Qle_bool (remainingFraction quota) SOFT_QUOTA_THRESHOLD
  end.

(** [a.rateLimitedUntil && a.rateLimitedUntil > now] *)
Definition rateLimitActive (now : Z) (a : Account) : bool :=
  match rateLimitedUntil a with
  | None => false
  | Some t => if t =? 0 then false else t >? now
  end.

(** The comparator handed to [pool.sort]. *)
Definition compareLastUsed (a b : Account) : Z :=
  js_or (lastUsed a) 0 - js_or (lastUsed b) 0.

(** One iteration of [for (const a of config.accounts)]; the state is the
    pair of arrays [(available, softQuotaExceeded)]. *)
Definition select_step (clock : Z) (excludeEmails : list string) (now : Z)
    (st : list Account * list Account) (a : Account)
    : list Account * list Account :=
  let '(available, softQuotaExceeded) := st in
  if bool_decide (email a ∈ excludeEmails) then st
  else if rateLimitActive now a then st
  else if isSoftQuotaExceeded clock a
       then (available, softQuotaExceeded ++ [a])
       else (available ++ [a], softQuotaExceeded).

Definition selectAccount (clock : Z) (config : AccountsConfig)
    (excludeEmails : list string) (now : Z) : option Account :=
  let '(available, softQuotaExceeded) :=
    foldl (select_step clock excludeEmails now) ([], []) (accounts config) in
  let pool :=
    if (0 <? length available)%nat then available else softQuotaExceeded in
  if (length pool =? 0)%nat then None
  else head (js_sort compareLastUsed pool).

(** [config.accounts.find((a) => a.email === email)] followed by an
    assignment to one field of the object found. *)
Definition update_found (email' : string) (f : Account → Account)
    (config : AccountsConfig) : AccountsConfig :=
  match list_find (λ a, email a = email') (accounts config) with
  | Some (i, account) => {| accounts := <[i := f account]> (accounts config) |}
  | None => config
  end.

Definition markUsed (config : AccountsConfig) (email' : string) (now : Z)
    : AccountsConfig :=
  update_found email' (set_lastUsed now) config.

Definition markRateLimited (config : AccountsConfig) (email' : string)
    (now : Z) : AccountsConfig :=
  update_found email' (set_rateLimitedUntil (now + RATE_LIMIT_COOLDOWN_MS)) config.

Definition updateCachedQuota (clock : Z) (config : AccountsConfig)
    (email' : string) (remainingFraction' : Q) (resetTime' : option string)
    : AccountsConfig :=
  update_found email'
    (set_cachedImageQuota
       {| remainingFraction := remainingFraction';
          resetTime := resetTime';
          updatedAt := clock |})
    config.

(** ** A state monad, used for the object heap and for the network trace *)

Definition State (St A : Type) : Type := St → A * St.

#[global] Instance State_ret {St} : MRet (State St) := λ A a s, (a, s).
#[global] Instance State_bind {St} : MBind (State St) :=
  λ A B f m s, let '(a, s') := m s in f a s'.

Definition modify {St} (f : St → St) : State St unit := λ s, (tt, f s).

(** [for (const x of l) body(x)] where [body] neither breaks nor returns. *)
Fixpoint for_each {St A} (l : list A) (body : A → State St unit)
    : State St unit :=
  match l with
  | [] => mret tt
  | x :: l' => body x ≫= λ _, for_each l' body
  end.

(** ** selectAccount on a heap of shared objects

    [config.accounts] is an array of references to account objects; the
    arrays [available] and [softQuotaExceeded] are allocated by the call and
    hold references to the same objects; [pool] aliases one of the two and
    [pool.sort] sorts that array in place. *)

Record Heap := {
  objs : nat → Account;        (* account objects, by reference *)
  arrs : list (list nat);      (* arrays of references, by array reference *)
}.

Definition new_array : State Heap nat :=
  λ h, (length (arrs h), {| objs := objs h; arrs := arrs h ++ [[]] |}).

Definition array_update (r : nat) (f : list nat → list nat) : State Heap unit :=
  modify (λ h, {| objs := objs h; arrs := alter f r (arrs h) |}).

Definition array_push (r x : nat) : State Heap unit :=
  array_update r (λ l, l ++ [x]).

Definition array_read (r : nat) : State Heap (list nat) :=
  λ h, (default [] (arrs h !! r), h).

Definition array_sort (r : nat) (compareFn : Account → Account → Z)
    : State Heap unit :=
  λ h, array_update r (js_sort (λ a b, compareFn (objs h a) (objs h b))) h.

Definition deref (a : nat) : State Heap Account := λ h, (objs h a, h).

(** The body of [for (const a of config.accounts)]. *)
Definition select_body (clock : Z) (excludeEmails : list string) (now : Z)
    (available softQuotaExceeded : nat) (a : nat) : State Heap unit :=
  obj ← deref a;
  if bool_decide (email obj ∈ excludeEmails) then mret tt
  else if rateLimitActive now obj then mret tt
  else if isSoftQuotaExceeded clock obj
       then array_push softQuotaExceeded a
       else array_push available a.

Definition selectAccount_heap (clock : Z) (accountsRef : nat)
    (excludeEmails : list string) (now : Z) : State Heap (option nat) :=
  available ← new_array;
  softQuotaExceeded ← new_array;
  elems ← array_read accountsRef;
  for_each elems
    (select_body clock excludeEmails now available softQuotaExceeded) ≫= λ _,
  availableElems ← array_read available;
  let pool :=
    if (0 <? length availableElems)%nat then available else softQuotaExceeded in
  poolElems ← array_read pool;
  if (length poolElems =? 0)%nat then mret None
  else
    array_sort pool compareLastUsed ≫= λ _,
    sorted ← array_read pool;
    mret (head sorted).

(** ** api.ts: the request executor *)

Record Quota := {
  remainingPercent : Q;
  quotaResetTime : string;
}.

(** [ImageGenerationResult]; [candidates] stands for the raw [_candidates]
    payload, which the executor only passes through. *)
Record ImageGenerationResult := {
  success : bool;
  imagePath : option string;
  imageData : option string;
  mimeType : option string;
  sizeBytes : option Z;
  images : option (list (string * string * Z));
  error : option string;
  isRateLimited : option bool;
  isCapacityError : option bool;
  referenceErrors : option (list string);
  quota : option Quota;
  candidates : option string;
}.

(** [{ success: false, error, isRateLimited?, isCapacityError? }] *)
Definition failure (msg : string) (rl cap : option bool) : ImageGenerationResult :=
  {| success := false; imagePath := None; imageData := None; mimeType := None;
     sizeBytes := None; images := None; error := Some msg;
     isRateLimited := rl; isCapacityError := cap;
     referenceErrors := None; quota := None; candidates := None |}.

(** [{ ...result, referenceErrors, quota }] and [{ ...result, referenceErrors }] *)
Definition with_referenceErrors_quota (result : ImageGenerationResult)
    (re : option (list string)) (q : option Quota) : ImageGenerationResult :=
  {| success := success result; imagePath := imagePath result;
     imageData := imageData result; mimeType := mimeType result;
     sizeBytes := sizeBytes result; images := images result;
     error := error result; isRateLimited := isRateLimited result;
     isCapacityError := isCapacityError result;
     referenceErrors := re; quota := q; candidates := candidates result |}.

Definition with_referenceErrors (result : ImageGenerationResult)
    (re : option (list string)) : ImageGenerationResult :=
  with_referenceErrors_quota result re (quota result).

(** Truthiness of an optional string, and [s || d]. *)
Definition truthy (s : option string) : bool :=
  match s with
  | Some EmptyString | None => false
  | Some _ => true
  end.

Definition str_or (s : option string) (d : string) : string :=
  if truthy s then default d s else d.

(** What one [fetch] (with the reading of the response body) comes to. *)
Inductive FetchOutcome :=
  | FetchAbort                                (* rejected with an AbortError *)
  | FetchThrew (message : string)             (* rejected with anything else *)
  | FetchResponse (status : Z) (text : string).

(** What the executor does to the outside world, in order. *)
Inductive Event :=
  | EvSleep (delay : Z)
  | EvFetch (baseUrl : string) (outcome : FetchOutcome)
  | EvQuota (result : option Quota).

(** The outside world: what a request to [baseUrl] comes to, and what
    [getImageModelQuota(account).catch(() => null)] yields, after the events
    so far. *)
Record World := {
  fetch : list Event → string → FetchOutcome;
  getImageModelQuota : list Event → option Quota;
}.

(** The local variables of [generateImage] and the events so far. *)
Record Exec := {
  trace : list Event;
  allRateLimited : bool;
  allCapacity : bool;
  lastError : string;
}.

Definition log (e : Event) : State Exec unit :=
  modify (λ s, {| trace := trace s ++ [e]; allRateLimited := allRateLimited s;
                  allCapacity := allCapacity s; lastError := lastError s |}).

Definition set_allRateLimited (b : bool) : State Exec unit :=
  modify (λ s, {| trace := trace s; allRateLimited := b;
                  allCapacity := allCapacity s; lastError := lastError s |}).

Definition set_allCapacity (b : bool) : State Exec unit :=
  modify (λ s, {| trace := trace s; allRateLimited := allRateLimited s;
                  allCapacity := b; lastError := lastError s |}).

Definition set_lastError (msg : string) : State Exec unit :=
  modify (λ s, {| trace := trace s; allRateLimited := allRateLimited s;
                  allCapacity := allCapacity s; lastError := msg |}).

Definition sleep (delay : Z) : State Exec unit := log (EvSleep delay).

(** What the part of [generateImage] before the endpoint loop comes to. *)
Inductive Prepared :=
  | PrepareThrew (message : string)      (* caught by the outer [catch] *)
  | PrepareNoProject                     (* [!projectId] *)
  | PrepareReady (referenceErrors : list string).

Section Executor.

Variable parseSSEResponse : string → ImageGenerationResult.
Variable world : World.

(** [response.ok] *)
Definition response_ok (status : Z) : bool := (200 <=? status) && (status <=? 299).

(** The value [attemptGeneration] resolves to, by what the [try] block came to. *)
Definition attempt_result (outcome : FetchOutcome) : ImageGenerationResult * Z :=
  match outcome with
  | FetchResponse status text =>
      if negb (response_ok status) then
        (failure ("HTTP " +:+ pretty status +:+ ": " +:+ String.substring 0 300 text)
                 (Some (status =? 429)) (Some (status =? 503)),
         status)
      else (parseSSEResponse text, 200)
  | FetchAbort =>
      (failure ("Timeout after "
                +:+ pretty (IMAGE_GENERATION_TIMEOUT_MS / 1000) +:+ "s")
               None None, 0)
  | FetchThrew message => (failure message None None, 0)
  end.

Definition attemptGeneration (baseUrl : string)
    : State Exec (ImageGenerationResult * Z) :=
  λ s,
    let outcome := fetch world (trace s) baseUrl in
    let '(_, s') := log (EvFetch baseUrl outcome) s in
    (attempt_result outcome, s').

Definition fetchQuota : State Exec (option Quota) :=
  λ s,
    let q := getImageModelQuota world (trace s) in
    let '(_, s') := log (EvQuota q) s in (q, s').

(** [referenceErrors.length > 0 ? referenceErrors : undefined] *)
Definition refErrs (referenceErrors' : list string) : option (list string) :=
  if (0 <? length referenceErrors')%nat then Some referenceErrors' else None.

(** The loop [for (let retry = 0; retry <= maxRetries; retry++)] on one
    endpoint, entered at [retry] with [n] iterations left.  [Some r] is
    [return r]; [None] is leaving the loop, by [break] or by exhaustion. *)
Fixpoint retry_loop (baseDelay : Z) (referenceErrors' : list string)
    (baseUrl : string) (n : nat) (retry : Z)
    : State Exec (option ImageGenerationResult) :=
  match n with
  | O => mret None
  | S n' =>
      (if 0 <? retry then sleep (baseDelay * 2 ^ (retry - 1)) else mret tt) ≫= λ _,
      '(result, status) ← attemptGeneration baseUrl;
      if success result && truthy (imageData result) then
        set_allRateLimited false ≫= λ _,
        set_allCapacity false ≫= λ _,
        quota' ← fetchQuota;
        mret (Some (with_referenceErrors_quota result
                      (refErrs referenceErrors') quota'))
      else if status =? 503 then
        set_allRateLimited false ≫= λ _,
        set_lastError (str_or (error result) "No capacity") ≫= λ _,
        retry_loop baseDelay referenceErrors' baseUrl n' (retry + 1)
      else if status =? 429 then
        set_allCapacity false ≫= λ _,
        set_lastError (str_or (error result) "Rate limited") ≫= λ _,
        mret None
      else
        set_allRateLimited false ≫= λ _,
        set_allCapacity false ≫= λ _,
        mret (Some (with_referenceErrors result (refErrs referenceErrors')))
  end.

(** [for (const baseUrl of urls)] *)
Fixpoint endpoint_loop (maxRetries : nat) (baseDelay : Z)
    (referenceErrors' : list string) (urls : list string)
    : State Exec (option ImageGenerationResult) :=
  match urls with
  | [] => mret None
  | baseUrl :: urls' =>
      r ← retry_loop baseDelay referenceErrors' baseUrl (S maxRetries) 0;
      match r with
      | Some result => mret (Some result)
      | None => endpoint_loop maxRetries baseDelay referenceErrors' urls'
      end
  end.

(** The executor over an endpoint list, a retry count and a base delay. *)
Definition execute (urls : list string) (maxRetries : nat) (baseDelay : Z)
    (referenceErrors' : list string) : State Exec ImageGenerationResult :=
  r ← endpoint_loop maxRetries baseDelay referenceErrors' urls;
  match r with
  | Some result => mret result
  | None =>
      λ s, (failure (if String.eqb (lastError s) "" then "All endpoints failed"
                     else lastError s)
                    (Some (allRateLimited s)) (Some (allCapacity s)), s)
  end.

Definition initial : Exec :=
  {| trace := []; allRateLimited := true; allCapacity := true; lastError := "" |}.

(** [generateImage], from the point where the preparation has come to [p]. *)
Definition generateImage (p : Prepared) : ImageGenerationResult * list Event :=
  match p with
  | PrepareThrew message => (failure message None None, [])
  | PrepareNoProject => (failure "Could not determine project ID" None None, [])
  | PrepareReady referenceErrors' =>
      let '(r, s) := execute CLOUDCODE_FALLBACK_URLS CAPACITY_RETRY_COUNT
                       CAPACITY_RETRY_BASE_DELAY_MS referenceErrors' initial in
      (r, trace s)
  end.

(** The class of one attempt, in the words of the specification: timeout,
    HTTP 429, HTTP 503, any other non-2xx status, 2xx with an image, 2xx
    without one. *)
Inductive Outcome :=
  | Success | RateLimited | CapacityUnavailable | Timeout | OtherError.

Definition classify (o : FetchOutcome) : Outcome :=
  match o with
  | FetchAbort => Timeout
  | FetchThrew _ => OtherError
  | FetchResponse status text =>
      if status =? 429 then RateLimited
      else if status =? 503 then CapacityUnavailable
      else if response_ok status then
        if success (parseSSEResponse text)
           && truthy (imageData (parseSSEResponse text))
        then Success else OtherError
      else OtherError
  end.

(** Whether every attempt recorded in a trace is of class [c]. *)
Definition all_attempts (c : Outcome) (tr : list Event) : bool :=
  forallb (λ e, match e with
                | EvFetch _ o =>
                    match classify o, c with
                    | RateLimited, RateLimited => true
                    | CapacityUnavailable, CapacityUnavailable => true
                    | _, _ => false
                    end
                | _ => true
                end) tr.

(** The two flags say what the trace says. *)
Definition flags_track (s : Exec) : Prop :=
  allRateLimited s = all_attempts RateLimited (trace s) ∧
  allCapacity s = all_attempts CapacityUnavailable (trace s).

End Executor.

(** An event without what came back. *)
Inductive Action :=
  | DoSleep (delay : Z)
  | DoFetch (baseUrl : string)
  | DoQuota.

Definition action (e : Event) : Action :=
  match e with
  | EvSleep delay => DoSleep delay
  | EvFetch baseUrl _ => DoFetch baseUrl
  | EvQuota _ => DoQuota
  end.

(** The number of attempts a trace records against [baseUrl]. *)
Definition attempts_on (baseUrl : string) (tr : list Event) : nat :=
  length (List.filter (λ e, match e with
                            | EvFetch u _ => String.eqb u baseUrl
                            | _ => false
                            end) tr).

(** Attempts number [retry], [retry + 1], ... ([n] of them) on one endpoint,
    each after the first preceded by a sleep of [baseDelay * 2^(retry-1)]. *)
Definition backoff_actions (baseDelay : Z) (baseUrl : string) (retry : Z)
    (n : nat) : list Action :=
  flat_map (λ k, (if 0 <? k then [DoSleep (baseDelay * 2 ^ (k - 1))] else [])
                 ++ [DoFetch baseUrl])
           (seqZ retry (Z.of_nat n)).

(** What the loop does before attempt number [retry]. *)
Definition backoff_events (baseDelay : Z) (retry : Z) : list Event :=
  if 0 <? retry then [EvSleep (baseDelay * 2 ^ (retry - 1))] else [].

(** Test doubles: a decoder that finds an image in every body, and worlds
    in which the first endpoint has no capacity, is rate-limited, or times
    out, while any other endpoint answers 200. *)
Definition parse_image (text : string) : ImageGenerationResult :=
  {| success := true; imagePath := None; imageData := Some text;
     mimeType := Some "image/png"%string; sizeBytes := Some 3; images := None;
     error := None; isRateLimited := None; isCapacityError := None;
     referenceErrors := None; quota := None; candidates := None |}.

Definition world_first (o : FetchOutcome) : World :=
  {| fetch := λ _ u, if String.eqb u "E1" then o else FetchResponse 200 "aW1n";
     getImageModelQuota := λ _, None |}.

Definition world_all (o : FetchOutcome) : World :=
  {| fetch := λ _ _, o; getImageModelQuota := λ _, None |}.

(** ** Vocabulary of the specification *)

(** A credential is cooldown-active at [now] when [rateLimitedUntil > now]. *)
Definition cooldown_active (now : Z) (a : Account) : Prop :=
  ∃ t, rateLimitedUntil a = Some t ∧ now < t.

(** Effective [lastUsedAt]: a credential never used counts as used at [0],
    the least timestamp. *)
Definition effectiveLastUsed (a : Account) : Z := default 0 (lastUsed a).

(** [a], stored at index [i] of [l], is the least recently used credential
    among those of [l] that satisfy [P]: none has a smaller effective
    [lastUsedAt], and none before it in [l] has an equal one. *)
Definition lru_first (P : Account → Prop) (l : list Account) (i : nat)
    (a : Account) : Prop :=
  l !! i = Some a ∧ P a ∧
  ∀ j b, l !! j = Some b → P b →
    effectiveLastUsed a ≤ effectiveLastUsed b ∧
    ((j < i)%nat → effectiveLastUsed a < effectiveLastUsed b).

(** A cached quota observation is fresh at time [t] when
    [t - updatedAt <= freshnessWindow]. *)
Definition fresh_at (t : Z) (q : CachedImageQuota) : Prop :=
  t - updatedAt q ≤ QUOTA_CACHE_TTL_MS.

(** [i] is the index of the first record of [l] whose identity is [key]. *)
Definition first_match (key : string) (l : list Account) (i : nat) : Prop :=
  (∃ a, l !! i = Some a ∧ email a = key) ∧
  ∀ j b, (j < i)%nat → l !! j = Some b → email b ≠ key.

(** The record a later lookup by identity key finds. *)
Definition find_account (key : string) (config : AccountsConfig) : option Account :=
  snd <$> list_find (λ a, email a = key) (accounts config).

(** Two records agree on every field but the named one. *)
Definition same_but_lastUsed (a a' : Account) : Prop :=
  email a' = email a ∧ refreshToken a' = refreshToken a ∧
  accessToken a' = accessToken a ∧ projectId a' = projectId a ∧
  managedProjectId a' = managedProjectId a ∧
  rateLimitedUntil a' = rateLimitedUntil a ∧
  cachedImageQuota a' = cachedImageQuota a.

Definition same_but_rateLimitedUntil (a a' : Account) : Prop :=
  email a' = email a ∧ refreshToken a' = refreshToken a ∧
  accessToken a' = accessToken a ∧ projectId a' = projectId a ∧
  managedProjectId a' = managedProjectId a ∧
  lastUsed a' = lastUsed a ∧
  cachedImageQuota a' = cachedImageQuota a.

Definition same_but_cachedImageQuota (a a' : Account) : Prop :=
  email a' = email a ∧ refreshToken a' = refreshToken a ∧
  accessToken a' = accessToken a ∧ projectId a' = projectId a ∧
  managedProjectId a' = managedProjectId a ∧
  lastUsed a' = lastUsed a ∧
  rateLimitedUntil a' = rateLimitedUntil a.

(** The two tests of the selection loop, and the two pools they fill. *)
Definition eligible (excludeEmails : list string) (now : Z) (a : Account) : bool :=
  negb (bool_decide (email a ∈ excludeEmails)) && negb (rateLimitActive now a).

Definition in_headroom (clock : Z) (excludeEmails : list string) (now : Z)
    (a : Account) : bool :=
  eligible excludeEmails now a && negb (isSoftQuotaExceeded clock a).

Definition in_softExceeded (clock : Z) (excludeEmails : list string) (now : Z)
    (a : Account) : bool :=
  eligible excludeEmails now a && isSoftQuotaExceeded clock a.

(** Eligibility in the words of the specification: not excluded and not
    cooldown-active. *)
Definition is_eligible (excludeEmails : list string) (now : Z) (a : Account)
    : Prop :=
  (email a ∉ excludeEmails) ∧ ¬ cooldown_active now a.

(** The preferred pool when nothing is excluded or cooling down: the
    credentials that are not soft-exceeded if there is one, else all. *)
Definition in_preferred_pool (clock : Z) (l : list Account) (b : Account)
    : Prop :=
  (∃ c, c ∈ l ∧ isSoftQuotaExceeded clock c = false) →
  isSoftQuotaExceeded clock b = false.

(** A fresh observation, by the timestamp [t], at or below the threshold. *)
Definition low_fresh_quota_at (t : Z) (a : Account) : Prop :=
  ∃ q, cachedImageQuota a = Some q ∧ fresh_at t q ∧
       (remainingFraction q <= SOFT_QUOTA_THRESHOLD)%Q.

(** [l'] is [l] with the record at index [i] replaced by one that [same]
    relates to it: same length, every other index untouched. *)
Definition only_changed_at (same : Account → Account → Prop) (i : nat)
    (l l' : list Account) : Prop :=
  length l' = length l ∧
  (∀ j, j ≠ i → l' !! j = l !! j) ∧
  ∃ a a', l !! i = Some a ∧ l' !! i = Some a' ∧ same a a'.

(** The store as the pure model sees it: the objects the array at
    [accountsRef] refers to, in order. *)
Definition store_of (h : Heap) (accountsRef : nat) : AccountsConfig :=
  {| accounts := objs h <$> default [] (arrs h !! accountsRef) |}.

(** Test fixtures in the style of [accounts.test.ts]. *)
Definition mkAccount (e : string) (lu rl : option Z)
    (q : option CachedImageQuota) : Account :=
  {| email := e; refreshToken := "token"; accessToken := None;
     projectId := None; managedProjectId := None;
     lastUsed := lu; rateLimitedUntil := rl; cachedImageQuota := q |}.

Definition mkQuota (f : Q) (t : Z) : CachedImageQuota :=
  {| remainingFraction := f; resetTime := None; updatedAt := t |}.

Definition user_used_100 : Account := mkAccount "user1" (Some 100) None None.
Definition user_low_quota : Account :=
  mkAccount "user2" None None (Some (mkQuota (5 # 100) 999000)).
Definition store_low_quota : AccountsConfig :=
  {| accounts := [user_used_100; user_low_quota] |}.

Definition user_quota_at_0 : Account :=
  mkAccount "user1" None None (Some (mkQuota 0 0)).
Definition user_used_500 : Account := mkAccount "user2" (Some 500) None None.
Definition store_quota_at_0 : AccountsConfig :=
  {| accounts := [user_quota_at_0; user_used_500] |}.

Definition heap_of (config : AccountsConfig) : Heap :=
  {| objs := λ a, default (mkAccount "" None None None) (accounts config !! a);
     arrs := [seq 0 (length (accounts config))] |}.

Definition store_mixed : AccountsConfig :=
  {| accounts := [ mkAccount "user1" (Some 10) None None;
                   mkAccount "user2" None (Some 61000) None;
                   mkAccount "user3" (Some 30) None None;
                   mkAccount "user4" (Some 20) (Some 900) None ] |}.

(** ** index.ts: the account rotation of the [generate_image] tool

    The loop [for (let attempt = 0; attempt < MAX_RETRIES; attempt++)] of
    [execute], with what it does to the accounts: [selectAccount],
    [generateImage], [markAccountUsed], [updateCachedQuota],
    [markAccountRateLimited] and [saveAccounts].  Writing the image files,
    the session and the reply text come after the loop has found its
    result and are not part of this model.  [clock k] is what the [k]-th
    reading of [Date.now()] returns; [gen attempt account] is what
    [generateImage] resolves to on that attempt.  The writes of
    [saveAccounts] are taken to succeed: [run_disk] is what the file
    holds afterwards. *)

Record Run := {
  run_config : AccountsConfig;          (* [config], mutated in place *)
  run_disk : option AccountsConfig;     (* what [saveAccounts] last wrote *)
  run_reads : nat;                      (* readings of [Date.now()] so far *)
  run_exclude : list string;            (* [excludeEmails] *)
  run_errors : list string;             (* [errors] *)
}.

Inductive Finished :=
  | Generated (account : Account) (result : ImageGenerationResult) (s : Run)
  | Failed (s : Run).

(** Truthiness of an optional boolean. *)
Definition truthy_flag (b : option bool) : bool := default false b.

(** The [reason] pushed to [errors] for a failed account. *)
Definition failure_reason (result : ImageGenerationResult) : string :=
  if truthy_flag (isRateLimited result) then "rate-limited"
  else if truthy_flag (isCapacityError result)
       then "no capacity (503, retries exhausted)"
       else str_or (error result) "unknown error".

Definition with_config (c : AccountsConfig) (s : Run) : Run :=
  {| run_config := c; run_disk := run_disk s; run_reads := run_reads s;
     run_exclude := run_exclude s; run_errors := run_errors s |}.

Definition tick (s : Run) : Run :=
  {| run_config := run_config s; run_disk := run_disk s;
     run_reads := S (run_reads s);
     run_exclude := run_exclude s; run_errors := run_errors s |}.

Definition saveAccounts (s : Run) : Run :=
  {| run_config := run_config s; run_disk := Some (run_config s);
     run_reads := run_reads s;
     run_exclude := run_exclude s; run_errors := run_errors s |}.

Definition give_up_on (account : Account) (reason : string) (s : Run) : Run :=
  {| run_config := run_config s; run_disk := run_disk s;
     run_reads := run_reads s;
     run_exclude := run_exclude s ++ [email account];
     run_errors := run_errors s ++ [email account +:+ ": " +:+ reason] |}.

Section Rotation.

Variable clock : nat → Z.
Variable gen : nat → Account → ImageGenerationResult.

(** [markAccountUsed(config, email)] and [markAccountRateLimited(config,
    email)]: the mutation at the current time, then the write. *)
Definition markAccountUsed (email' : string) (s : Run) : Run :=
  saveAccounts
    (with_config (markUsed (run_config s) email' (clock (run_reads s))) (tick s)).

Definition markAccountRateLimited (email' : string) (s : Run) : Run :=
  saveAccounts
    (with_config (markRateLimited (run_config s) email' (clock (run_reads s)))
                 (tick s)).

(** The success branch: [markAccountUsed], then [updateCachedQuota] and
    [saveAccounts] if the result carries a quota. *)
Definition record_success (account : Account)
    (result : ImageGenerationResult) (s : Run) : Run :=
  let s := markAccountUsed (email account) s in
  match quota result with
  | Some q =>
      saveAccounts
        (with_config
           (updateCachedQuota (clock (run_reads s)) (run_config s)
              (email account) (remainingPercent q / 100)%Q
              (Some (quotaResetTime q)))
           (tick s))
  | None => s
  end.

(** The failure branch: [markAccountRateLimited] if the result says so,
    then the pushes to [errors] and [excludeEmails]. *)
Definition record_failure (account : Account)
    (result : ImageGenerationResult) (s : Run) : Run :=
  give_up_on account (failure_reason result)
    (if truthy_flag (isRateLimited result)
     then markAccountRateLimited (email account) s else s).

(** The loop, with [n] iterations left. *)
Fixpoint rotate (n : nat) (attempt : nat) (s : Run) : Finished :=
  match n with
  | O => Failed s
  | S n' =>
      let now := clock (run_reads s) in
      let s := tick s in
      match selectAccount now (run_config s) (run_exclude s) now with
      | None => Failed s
      | Some account =>
          let result := gen attempt account in
          if success result && truthy (imageData result)
          then Generated account result (record_success account result s)
          else rotate n' (S attempt) (record_failure account result s)
      end
  end.

Definition start (config : AccountsConfig) : Run :=
  {| run_config := config; run_disk := None; run_reads := 0;
     run_exclude := []; run_errors := [] |}.

Definition account_rotation (config : AccountsConfig) : Finished :=
  rotate MAX_RETRIES 0 (start config).

End Rotation.

(** The state a rotation ends in, and the emails it called
    [generateImage] for, in order. *)
Definition final (f : Finished) : Run :=
  match f with
  | Generated _ _ s => s
  | Failed s => s
  end.

Definition tried (f : Finished) : list string :=
  match f with
  | Generated account _ s => run_exclude s ++ [email account]
  | Failed s => run_exclude s
  end.

(** ** api.ts: model detection, content builders, reference images *)

Definition MAX_REFERENCE_IMAGES : nat := 10.

Definition IMAGE_MODEL_CANDIDATES : list string :=
  [ "gemini-3.1-flash-image"; "gemini-3-pro-image"; "gemini-3-flash-image";
    "gemini-2.5-flash-preview-image" ]%string.

(** [s.toLowerCase()], on the letters A to Z; no other character has a
    lower-case form made of the letters of ["image"] alone. *)
Definition lower (c : Ascii.ascii) : Ascii.ascii :=
  let n := Ascii.nat_of_ascii c in
  if (65 <=? n)%nat && (n <=? 90)%nat then Ascii.ascii_of_nat (n + 32) else c.

Fixpoint toLowerCase (s : string) : string :=
  match s with
  | EmptyString => EmptyString
  | String c s' => String (lower c) (toLowerCase s')
  end.

(** [s.includes(t)] *)
Fixpoint includes (s t : string) : bool :=
  String.prefix t s
  || match s with
     | EmptyString => false
     | String _ s' => includes s' t
     end.

Record ModelQuotaInfo := {
  quota_remainingFraction : option Q;
  quota_resetTime : option string;
}.

Record ModelInfo := {
  displayName : option string;
  model : option string;
  quotaInfo : option ModelQuotaInfo;
}.

(** [models] is the object of the response as the list of its entries, in
    the order [Object.keys] enumerates them. *)
Record CloudCodeQuotaResponse := {
  models : option (list (string * ModelInfo));
}.

Definition model_keys (response : CloudCodeQuotaResponse) : list string :=
  fst <$> default [] (models response).

Definition detectImageModel (response : CloudCodeQuotaResponse)
    : option string :=
  let keys := model_keys response in
  match list_find (λ candidate, candidate ∈ keys) IMAGE_MODEL_CANDIDATES with
  | Some (_, candidate) => Some candidate
  | None =>
      match list_find (λ k, includes (toLowerCase k) "image" = true) keys with
      | Some (_, fallback) =>
          if truthy (Some fallback) then Some fallback else None
      | None => None
      end
  end.

Inductive ContentPart :=
  | TextPart (text : string)
  | InlineDataPart (mimeType data : string).

Record Turn := {
  role : string;
  parts : list ContentPart;
}.

(** A part of a response candidate. *)
Record ResponsePart := {
  part_text : option string;
  part_thought : option bool;
  part_inlineData : option (string * string);     (* mimeType, data *)
}.

Record Candidate := {
  candidate_parts : option (option (list ResponsePart));  (* content?.parts *)
  candidate_finishReason : option string;
}.

Definition buildContents (prompt : string)
    (inputImageParts : option (list ContentPart))
    (sessionHistory : option (list Turn)) : list Turn :=
  let currentParts := default [] inputImageParts ++ [TextPart prompt] in
  let currentTurn := {| role := "user"; parts := currentParts |} in
  match sessionHistory with
  | Some history =>
      if (0 <? length history)%nat then history ++ [currentTurn]
      else [currentTurn]
  | None => [currentTurn]
  end.

(** What the inner loop of [buildModelResponseContent] pushes for one
    part, if anything. *)
Definition model_part (part : ResponsePart) : option ContentPart :=
  if truthy_flag (part_thought part) then None
  else
    match part_inlineData part with
    | Some (mimeType, data) =>
        if truthy (Some data) && truthy (Some mimeType)
        then Some (InlineDataPart mimeType data)
        else if truthy (part_text part)
             then TextPart <$> part_text part else None
    | None =>
        if truthy (part_text part) then TextPart <$> part_text part else None
    end.

Definition buildModelResponseContent (candidates : option (list Candidate))
    : option (list ContentPart) :=
  match candidates with
  | None | Some [] => None
  | Some candidates =>
      let parts :=
        flat_map (λ candidate,
                    omap model_part
                      match candidate_parts candidate with
                      | Some (Some cParts) => cParts
                      | _ => []
                      end)
                 candidates in
      if (0 <? length parts)%nat then Some parts else None
  end.

Section ReferenceImages.

(** [loadReferenceImage(p)]: the part it resolves to, or the text of what
    it throws. *)
Variable loadReferenceImage : string → ContentPart + string.

Definition load_step (st : list ContentPart * list string) (p : string)
    : list ContentPart * list string :=
  let '(parts, errors) := st in
  match loadReferenceImage p with
  | inl part => (parts ++ [part], errors)
  | inr message => (parts, errors ++ [p +:+ ": " +:+ message])
  end.

Definition loadReferenceImages (paths : list string)
    : list ContentPart * list string :=
  let limited := take MAX_REFERENCE_IMAGES paths in
  foldl load_step ([], []) limited.

End ReferenceImages.

(** ** sessions.ts

    Session ids and file names are sequences of UTF-16 code units, since
    the sanitising replacement works unit by unit. *)

Definition units (s : string) : list N :=
  Ascii.N_of_ascii <$> String.list_ascii_of_string s.

(** The class [[a-zA-Z0-9_-]]. *)
Definition safe_unit (u : N) : bool :=
  ((97 <=? u) && (u <=? 122) || (65 <=? u) && (u <=? 90)
   || (48 <=? u) && (u <=? 57) || (u =? 95) || (u =? 45))%N.

(** [sessionId.replace(/[^a-zA-Z0-9_-]/g, "_")] *)
Definition safeId (sessionId : list N) : list N :=
  (λ u, if safe_unit u then u else 95%N) <$> sessionId.

(** The last component of [getSessionPath]. *)
Definition sessionFileName (sessionId : list N) : list N :=
  safeId sessionId ++ units ".json".

(** [s.replace(pattern, replacement)] for a string pattern: the first
    occurrence only. *)
Fixpoint replace_first (pattern replacement s : list N) : list N :=
  if bool_decide (pattern `prefix_of` s)
  then replacement ++ drop (length pattern) s
  else match s with
       | [] => []
       | u :: s' => u :: replace_first pattern replacement s'
       end.

(** What [listSessions] makes of the names [readdir] returns. *)
Definition listed_sessions (files : list (list N)) : list (list N) :=
  replace_first (units ".json") []
    <$> List.filter (λ f, bool_decide (units ".json" `suffix_of` f)) files.

Record Session := {
  session_id : string;
  createdAt : Z;
  session_updatedAt : Z;
  history : list Turn;
}.

Definition createSession (clock : Z) (sessionId : string) : Session :=
  {| session_id := sessionId; createdAt := clock;
     session_updatedAt := clock; history := [] |}.

Definition push_turn (clock : Z) (t : Turn) (session : Session) : Session :=
  {| session_id := session_id session; createdAt := createdAt session;
     session_updatedAt := clock; history := history session ++ [t] |}.

Definition addUserMessage (clock : Z) (session : Session)
    (parts' : list ContentPart) : Session :=
  push_turn clock {| role := "user"; parts := parts' |} session.

Definition addModelMessage (clock : Z) (session : Session)
    (parts' : list ContentPart) : Session :=
  push_turn clock {| role := "model"; parts := parts' |} session.

Definition getSessionHistory (session : Session) : list Turn :=
  history session.

(** What [execute] does to the session after a success (index.ts): the
    user turn holds the prompt text only, the model turn what
    [buildModelResponseContent] keeps of the candidates, if anything. *)
Definition record_turns (clock : Z) (session : Session) (prompt : string)
    (candidates : option (list Candidate)) : Session :=
  let session := addUserMessage clock session [TextPart prompt] in
  match candidates with
  | Some _ =>
      match buildModelResponseContent candidates with
      | Some modelParts => addModelMessage clock session modelParts
      | None => session
      end
  | None => session
  end.

(** A part with something in it: image data with a type, or text. *)
Definition nonempty_part (p : ContentPart) : Prop :=
  match p with
  | TextPart text => text ≠ ""%string
  | InlineDataPart mimeType data => mimeType ≠ ""%string ∧ data ≠ ""%string
  end.

(** The parts of all candidates, in order. *)
Definition response_parts (candidates : list Candidate) : list ResponsePart :=
  flat_map (λ candidate,
              match candidate_parts candidate with
              | Some (Some cParts) => cParts
              | _ => []
              end) candidates.

(** A candidate without its parts marked as thoughts. *)
Definition without_thoughts (candidate : Candidate) : Candidate :=
  {| candidate_parts :=
       match candidate_parts candidate with
       | Some (Some cParts) =>
           Some (Some (List.filter (λ p, negb (truthy_flag (part_thought p)))
                                   cParts))
       | other => other
       end;
     candidate_finishReason := candidate_finishReason candidate |}.

(** The number of requests a trace records, and the time it records as
    slept. *)
Definition fetches (tr : list Event) : nat :=
  length (List.filter (λ e, match e with EvFetch _ _ => true | _ => false end) tr).

Definition slept (tr : list Event) : Z :=
  foldr (λ e acc, match e with EvSleep d => d + acc | _ => acc end) 0 tr.

(** ** api.ts: decoding the streamed response

    [JSON.parse] is taken as given: [JSON_parse s] is the value of the
    declared type [GenerateContentResponse] that [s] denotes, or [None]
    where [JSON.parse] throws.  [raw] is how the [_candidates] of a result
    are carried in the [candidates] field above. *)

Record ApiError := {
  code : Z;
  message : string;
  status : string;
}.

Record GenerateContentResponse := {
  response_candidates : option (option (list Candidate)); (* response?.candidates *)
  response_error : option ApiError;
}.

(** The line feed, as a character and as a string. *)
Definition LF : Ascii.ascii := Ascii.ascii_of_nat 10.
Definition newline : string := String LF EmptyString.

(** [text.split("\n")] *)
Fixpoint split_lines (text : string) : list string :=
  match text with
  | EmptyString => [EmptyString]
  | String c text' =>
      if Ascii.eqb c LF then EmptyString :: split_lines text'
      else match split_lines text' with
           | [] => [String c EmptyString]
           | line :: lines => String c line :: lines
           end
  end.

(** [line.slice(6)] *)
Definition slice6 (line : string) : string :=
  String.substring 6 (String.length line - 6) line.

(** What the innermost loop pushes to [allImages] for one part. *)
Definition image_of (part : ResponsePart) : option (string * string * Z) :=
  match part_inlineData part with
  | Some (mimeType, data) =>
      if truthy (Some data) && String.prefix "image/" mimeType
      then Some (data, mimeType, (Z.of_nat (String.length data) * 3 + 2) / 4)
      else None
  | None => None
  end.

Section Decoding.

Variable JSON_parse : string → option GenerateContentResponse.
Variable raw : list Candidate → string.

(** The result once all lines are read. *)
Definition sse_result (allImages : list (string * string * Z))
    (lastCandidates : option (list Candidate)) : ImageGenerationResult :=
  match allImages with
  | [] => failure "No image in response" None None
  | (imageData', mimeType', sizeBytes') :: _ =>
      {| success := true; imagePath := None; imageData := Some imageData';
         mimeType := Some mimeType'; sizeBytes := Some sizeBytes';
         images := Some allImages; error := None;
         isRateLimited := None; isCapacityError := None;
         referenceErrors := None; quota := None;
         candidates := raw <$> lastCandidates |}
  end.

(** [for (const line of lines)], with the two variables it updates. *)
Fixpoint sse_lines (lines : list string)
    (allImages : list (string * string * Z))
    (lastCandidates : option (list Candidate)) : ImageGenerationResult :=
  match lines with
  | [] => sse_result allImages lastCandidates
  | line :: lines' =>
      if negb (String.prefix "data: " line)
      then sse_lines lines' allImages lastCandidates
      else
        let jsonStr := slice6 line in
        if String.eqb jsonStr "[DONE]"
        then sse_lines lines' allImages lastCandidates
        else
          match JSON_parse jsonStr with
          | None => sse_lines lines' allImages lastCandidates
          | Some data =>
              match response_error data with
              | Some e =>
                  failure (pretty (code e) +:+ ": " +:+ message e) None None
              | None =>
                  let candidates' :=
                    match response_candidates data with
                    | Some (Some cs) => cs
                    | _ => []
                    end in
                  sse_lines lines'
                    (allImages ++ omap image_of (response_parts candidates'))
                    (if (0 <? length candidates')%nat
                     then Some candidates' else lastCandidates)
              end
          end
  end.

Definition parseSSEResponse (text : string) : ImageGenerationResult :=
  sse_lines (split_lines text) [] None.

(** A line that carries an error object. *)
Definition is_error_line (line : string) (e : ApiError) : Prop :=
  String.prefix "data: " line = true ∧ slice6 line ≠ "[DONE]"%string ∧
  ∃ data, JSON_parse (slice6 line) = Some data ∧ response_error data = Some e.

End Decoding.

(** An entry of [images] as the decoder builds it: data that is not
    empty, an image type, and three quarters of the length of the data,
    rounded, as its size. *)
Definition decoded_image (img : string * string * Z) : Prop :=
  img.1.1 ≠ ""%string ∧ String.prefix "image/" img.1.2 = true ∧
  img.2 = (Z.of_nat (String.length img.1.1) * 3 + 2) / 4.

(** A decoder for tests: a line whose payload is [E] carries an error, any
    other payload one candidate with a text part and an image part whose
    data is the payload. *)
Definition toy_JSON_parse (s : string) : option GenerateContentResponse :=
  if String.eqb s "{" then None
  else if String.eqb s "E"
  then Some {| response_candidates := None;
               response_error :=
                 Some {| code := 400; message := "bad request";
                         status := "INVALID_ARGUMENT" |} |}
  else Some {| response_candidates :=
                 Some (Some [ {| candidate_parts :=
                                   Some (Some
                                     [ {| part_text := Some "here"%string;
                                          part_thought := None;
                                          part_inlineData := None |};
                                       {| part_text := None;
                                          part_thought := None;
                                          part_inlineData :=
                                            Some ("image/png"%string, s) |} ]);
                                 candidate_finishReason := None |} ]);
               response_error := None |}.

(** Fixtures for the rotation: a clock that advances by one with every
    reading, a [generateImage] that always fails, one that always
    succeeds with a quota. *)
Definition clock_from_1000 (k : nat) : Z := 1000 + Z.of_nat k.

Definition gen_boom (attempt : nat) (account : Account) : ImageGenerationResult :=
  failure "boom" None None.

Definition gen_image (attempt : nat) (account : Account) : ImageGenerationResult :=
  with_referenceErrors_quota (parse_image "aW1n") None
    (Some {| remainingPercent := 40; quotaResetTime := "2026-03-01T00:00:00Z" |}).

(** * Properties *)

(** ** The stable sort and its first element *)

Section Sorting.

Context {A : Type} (key : A → Z) (compareFn : A → A → Z).
Hypothesis compareFn_key : ∀ a b, compareFn a b = key a - key b.

Lemma head_sort_insert x l :
  head (sort_insert compareFn x l) =
  match head l with
  | None => Some x
  | Some y => if key x <=? key y then Some x else Some y
  end.
Proof.
  destruct l as [|y l]; simpl; [done|].
  rewrite compareFn_key.
  destruct (Z.leb_spec (key x - key y) 0), (Z.leb_spec (key x) (key y));
    simpl; try done; lia.
Qed.

Lemma head_js_sort_cons x l :
  head (js_sort compareFn (x :: l)) =
  match head (js_sort compareFn l) with
  | None => Some x
  | Some m => if key x <=? key m then Some x else Some m
  end.
Proof. simpl. apply head_sort_insert. Qed.

Lemma head_js_sort_None l : head (js_sort compareFn l) = None ↔ l = [].
Proof.
  split; [|by intros ->].
  destruct l as [|x l]; [done|].
  rewrite head_js_sort_cons.
  destruct (head (js_sort compareFn l)); [|done].
  by destruct (key x <=? key a).
Qed.

(** The first element after sorting the sublist selected by [P] is the
    first element of [l], among those selected, with the least key. *)
Lemma head_sort_filter (P : A → bool) l a :
  head (js_sort compareFn (List.filter P l)) = Some a →
  ∃ i, l !! i = Some a ∧ P a = true ∧
    ∀ j b, l !! j = Some b → P b = true →
      key a ≤ key b ∧ ((j < i)%nat → key a < key b).
Proof.
  revert a. induction l as [|x l IH]; intros a; [done|].
  simpl. destruct (P x) eqn:HPx.
  - rewrite head_js_sort_cons.
    destruct (head (js_sort compareFn (List.filter P l))) as [m|] eqn:Hm.
    + destruct (IH m eq_refl) as (i & Hi & HPm & Hmin).
      destruct (Z.leb_spec (key x) (key m)) as [Hle|Hlt]; intros [= <-].
      * exists 0%nat. split_and!; [done..|].
        intros j b Hj HPb. split; [|lia].
        destruct j as [|j]; simpl in Hj; [injection Hj as <-; lia|].
        destruct (Hmin j b Hj HPb). lia.
      * exists (S i). split_and!; [done..|].
        intros j b Hj HPb.
        destruct j as [|j]; simpl in Hj; [injection Hj as <-; lia|].
        destruct (Hmin j b Hj HPb). split; [done|]. intros ?. auto with lia.
    + intros [= <-]. apply head_js_sort_None in Hm.
      exists 0%nat. split_and!; [done..|].
      intros j b Hj HPb. split; [|lia].
      destruct j as [|j]; simpl in Hj; [injection Hj as <-; lia|].
      assert (In b (List.filter P l)) as Hin.
      { apply filter_In. split; [|done]. apply list_elem_of_In.
        by eapply list_elem_of_lookup_2. }
      rewrite Hm in Hin. destruct Hin.
  - intros Ha. destruct (IH a Ha) as (i & Hi & HPa & Hmin).
    exists (S i). split_and!; [done..|].
    intros j b Hj HPb.
    destruct j as [|j]; simpl in Hj; [injection Hj as <-; congruence|].
    destruct (Hmin j b Hj HPb). split; [done|]. intros ?. auto with lia.
Qed.

End Sorting.

(** ** Selection: the loop, the pools and the pick *)

Lemma compareLastUsed_key a b :
  compareLastUsed a b = effectiveLastUsed a - effectiveLastUsed b.
Proof.
  unfold compareLastUsed, effectiveLastUsed, js_or.
  destruct (lastUsed a) as [x|], (lastUsed b) as [y|]; simpl;
    repeat case_match; lia.
Qed.

Lemma filter_nil_iff {A} (P : A → bool) l :
  List.filter P l = [] ↔ ∀ a, a ∈ l → P a = false.
Proof.
  induction l as [|x l IH]; simpl.
  - split; [|done]. intros _ a Ha. by apply elem_of_nil in Ha.
  - destruct (P x) eqn:HPx.
    + split; [done|]. intros H. specialize (H x (list_elem_of_here _ _)).
      congruence.
    + rewrite IH. split.
      * intros H a [->|Ha]%elem_of_cons; auto.
      * intros H a Ha. apply H. by apply list_elem_of_further.
Qed.

Lemma foldl_select_step clock ex now l available softQuotaExceeded :
  foldl (select_step clock ex now) (available, softQuotaExceeded) l =
  (available ++ List.filter (in_headroom clock ex now) l,
   softQuotaExceeded ++ List.filter (in_softExceeded clock ex now) l).
Proof.
  revert available softQuotaExceeded.
  induction l as [|a l IH]; intros av sq; simpl.
  - by rewrite !app_nil_r.
  - unfold in_headroom, in_softExceeded, eligible.
    destruct (bool_decide (email a ∈ ex)); simpl; [apply IH|].
    destruct (rateLimitActive now a); simpl; [apply IH|].
    destruct (isSoftQuotaExceeded clock a); simpl;
      rewrite IH; by rewrite <- app_assoc.
Qed.

Lemma selectAccount_pools clock config ex now :
  selectAccount clock config ex now =
  match List.filter (in_headroom clock ex now) (accounts config) with
  | [] => head (js_sort compareLastUsed
                  (List.filter (in_softExceeded clock ex now) (accounts config)))
  | available => head (js_sort compareLastUsed available)
  end.
Proof.
  unfold selectAccount. rewrite foldl_select_step. simpl.
  destruct (List.filter (in_headroom clock ex now) (accounts config))
    as [|x av]; simpl.
  - by destruct (List.filter (in_softExceeded clock ex now) (accounts config)).
  - done.
Qed.

Lemma rateLimitActive_cooldown now a :
  rateLimitActive now a = true → cooldown_active now a.
Proof.
  unfold rateLimitActive, cooldown_active.
  destruct (rateLimitedUntil a) as [t|]; [|done].
  destruct (t =? 0); [done|]. intros H. exists t. split; [done|lia].
Qed.

Lemma cooldown_rateLimitActive now a :
  0 ≤ now → cooldown_active now a → rateLimitActive now a = true.
Proof.
  unfold rateLimitActive. intros Hnow (t & -> & Ht).
  destruct (Z.eqb_spec t 0); lia.
Qed.

Lemma eligible_true ex now a :
  eligible ex now a = true →
  (email a ∉ ex) ∧ rateLimitActive now a = false.
Proof.
  unfold eligible. intros [H1 H2]%andb_true_iff.
  apply negb_true_iff in H1, H2. by apply bool_decide_eq_false in H1.
Qed.

Lemma eligible_intro ex now a :
  email a ∉ ex → rateLimitActive now a = false → eligible ex now a = true.
Proof.
  unfold eligible. intros H1 ->. by rewrite bool_decide_eq_false_2.
Qed.

(** What a successful selection returns: the least recently used member
    of the headroom pool if that pool is non-empty, else of the
    soft-exceeded pool. *)
Lemma selectAccount_Some clock config ex now a :
  selectAccount clock config ex now = Some a →
  ∃ i,
    ((∃ b, b ∈ accounts config ∧ in_headroom clock ex now b = true) ∧
     lru_first (λ b, in_headroom clock ex now b = true) (accounts config) i a)
    ∨
    ((∀ b, b ∈ accounts config → in_headroom clock ex now b = false) ∧
     lru_first (λ b, in_softExceeded clock ex now b = true) (accounts config) i a).
Proof.
  rewrite selectAccount_pools.
  destruct (List.filter (in_headroom clock ex now) (accounts config))
    as [|x av] eqn:Hav.
  - intros H.
    apply (head_sort_filter effectiveLastUsed _ compareLastUsed_key) in H.
    destruct H as (i & ? & ? & ?). exists i. right. split; [|done].
    by apply filter_nil_iff.
  - rewrite <- Hav. intros H.
    apply (head_sort_filter effectiveLastUsed _ compareLastUsed_key) in H.
    destruct H as (i & ? & ? & ?). exists i. left. split; [|done].
    exists x. assert (In x (List.filter (in_headroom clock ex now) (accounts config)))
      as [? ?]%filter_In by (rewrite Hav; by left).
    split; [by apply list_elem_of_In|done].
Qed.

Lemma selectAccount_None clock config ex now :
  selectAccount clock config ex now = None ↔
  ∀ a, a ∈ accounts config → eligible ex now a = false.
Proof.
  rewrite selectAccount_pools.
  destruct (List.filter (in_headroom clock ex now) (accounts config))
    as [|x av] eqn:Hav.
  - rewrite (head_js_sort_None effectiveLastUsed _ compareLastUsed_key).
    rewrite filter_nil_iff. rewrite filter_nil_iff in Hav.
    split; intros H a Ha; specialize (H a Ha); specialize (Hav a Ha);
      unfold in_headroom, in_softExceeded in *;
      destruct (eligible ex now a), (isSoftQuotaExceeded clock a); done.
  - rewrite (head_js_sort_None effectiveLastUsed _ compareLastUsed_key).
    split; [done|]. intros H.
    assert (In x (List.filter (in_headroom clock ex now) (accounts config)))
      as [Hx HPx]%filter_In by (rewrite Hav; by left).
    apply list_elem_of_In in Hx. specialize (H x Hx).
    unfold in_headroom in HPx. rewrite H in HPx. done.
Qed.

Lemma lru_first_ext (P Q : Account → Prop) l i a :
  (∀ b, b ∈ l → P b ↔ Q b) → lru_first P l i a → lru_first Q l i a.
Proof.
  intros HPQ (Hi & HPa & Hmin). split_and!; [done|..].
  - apply HPQ; [by eapply list_elem_of_lookup_2|done].
  - intros j b Hj HQb. apply Hmin; [done|].
    apply HPQ; [by eapply list_elem_of_lookup_2|done].
Qed.

Lemma eligible_is_eligible ex now a :
  0 ≤ now → eligible ex now a = true ↔ is_eligible ex now a.
Proof.
  intros Hnow. unfold is_eligible. split.
  - intros [Hex Hrl]%eligible_true. split; [done|].
    intros Hc. apply (cooldown_rateLimitActive _ _ Hnow) in Hc. congruence.
  - intros [Hex Hc]. apply eligible_intro; [done|].
    destruct (rateLimitActive now a) eqn:Hrl; [|done].
    by apply rateLimitActive_cooldown in Hrl.
Qed.

Lemma eligible_false_iff ex now a :
  0 ≤ now → eligible ex now a = false ↔ email a ∈ ex ∨ cooldown_active now a.
Proof.
  intros Hnow. unfold eligible. rewrite andb_false_iff, !negb_false_iff.
  rewrite bool_decide_eq_true. split.
  - intros [?|?]; [by left|right]. by apply rateLimitActive_cooldown.
  - intros [?|?]; [by left|right]. by apply cooldown_rateLimitActive.
Qed.

(** ** Claims about selection *)

(** C5. For a reference timestamp [now] (a timestamp is non-negative),
    selection returns none if and only if every credential of the store is
    in the exclusion set or cooldown-active ([rateLimitedUntil > now]); a
    credential it returns is in the store, not in the exclusion set and not
    cooldown-active; and a credential with [now >= rateLimitedUntil] is
    eligible again: if it is not excluded, selection does not return none,
    and on its own it is the one selected. *)
Theorem selectAccount_none_iff_all_excluded_or_cooling clock config ex now :
  0 ≤ now →
  (selectAccount clock config ex now = None ↔
     ∀ a, a ∈ accounts config → email a ∈ ex ∨ cooldown_active now a)
  ∧ (∀ a, selectAccount clock config ex now = Some a →
       a ∈ accounts config ∧ (email a ∉ ex) ∧ ¬ cooldown_active now a)
  ∧ (∀ a t, a ∈ accounts config → email a ∉ ex →
       rateLimitedUntil a = Some t → t ≤ now →
       selectAccount clock config ex now ≠ None ∧
       selectAccount clock {| accounts := [a] |} ex now = Some a).
Proof.
  intros Hnow. split_and!.
  - rewrite selectAccount_None. split; intros H a Ha.
    + apply eligible_false_iff; auto.
    + apply eligible_false_iff; auto.
  - intros a Ha. apply selectAccount_Some in Ha as (i & Hcase).
    assert (a ∈ accounts config ∧ eligible ex now a = true) as [Hin Hel].
    { destruct Hcase as [[_ (Hi & HP & _)]|[_ (Hi & HP & _)]];
        (split; [by eapply list_elem_of_lookup_2|]);
        unfold in_headroom, in_softExceeded in HP;
        by apply andb_true_iff in HP as [? _]. }
    apply eligible_is_eligible in Hel as [? ?]; done.
  - intros a t Hin Hex Ht Hle.
    assert (eligible ex now a = true) as Hel.
    { apply eligible_intro; [done|]. unfold rateLimitActive. rewrite Ht.
      destruct (t =? 0); [done|]. lia. }
    split.
    + rewrite selectAccount_None. intros H. specialize (H a Hin). congruence.
    + rewrite selectAccount_pools. simpl. unfold in_headroom, in_softExceeded.
      rewrite Hel. simpl. by destruct (isSoftQuotaExceeded clock a).
Qed.

Lemma selectAccount_none_iff_all_excluded_or_cooling_witness :
  (selectAccount 1000 store_mixed ["user1"%string] 1000 = None ↔
     ∀ a, a ∈ accounts store_mixed →
          email a ∈ ["user1"%string] ∨ cooldown_active 1000 a)
  ∧ (∀ a, selectAccount 1000 store_mixed ["user1"%string] 1000 = Some a →
       a ∈ accounts store_mixed ∧ (email a ∉ ["user1"%string]) ∧
       ¬ cooldown_active 1000 a)
  ∧ (∀ a t, a ∈ accounts store_mixed → email a ∉ ["user1"%string] →
       rateLimitedUntil a = Some t → t ≤ 1000 →
       selectAccount 1000 store_mixed ["user1"%string] 1000 ≠ None ∧
       selectAccount 1000 {| accounts := [a] |} ["user1"%string] 1000 = Some a).
Proof.
  apply (selectAccount_none_iff_all_excluded_or_cooling
           1000 store_mixed ["user1"%string] 1000).
  lia.
Defined.

(** C6. Selection prefers the headroom pool whenever it is non-empty: if
    some eligible credential is not soft-exceeded, the credential returned
    is the least recently used of the eligible credentials that are not
    soft-exceeded.  If there are eligible credentials and every one of
    them is soft-exceeded, selection still returns one, the least recently
    used of them, rather than none. *)
Theorem selectAccount_prefers_headroom clock config ex now :
  0 ≤ now →
  (∀ b, b ∈ accounts config → is_eligible ex now b →
        isSoftQuotaExceeded clock b = false →
     ∃ i a, selectAccount clock config ex now = Some a ∧
       lru_first (λ c, is_eligible ex now c ∧
                       isSoftQuotaExceeded clock c = false)
                 (accounts config) i a)
  ∧ (∀ b, b ∈ accounts config → is_eligible ex now b →
        (∀ c, c ∈ accounts config → is_eligible ex now c →
              isSoftQuotaExceeded clock c = true) →
     ∃ i a, selectAccount clock config ex now = Some a ∧
       isSoftQuotaExceeded clock a = true ∧
       lru_first (is_eligible ex now) (accounts config) i a).
Proof.
  intros Hnow. split.
  - intros b Hb Hel Hsoft.
    apply eligible_is_eligible in Hel; [|done].
    destruct (selectAccount clock config ex now) as [a|] eqn:Hsel.
    + apply selectAccount_Some in Hsel as (i & [[_ Hlru]|[Hnone _]]).
      * exists i, a. split; [done|].
        eapply lru_first_ext; [|exact Hlru].
        intros c _. unfold in_headroom.
        rewrite andb_true_iff, negb_true_iff, eligible_is_eligible; done.
      * specialize (Hnone b Hb). unfold in_headroom in Hnone.
        rewrite Hel, Hsoft in Hnone. done.
    + rewrite selectAccount_None in Hsel. specialize (Hsel b Hb). congruence.
  - intros b Hb Hel Hall.
    destruct (selectAccount clock config ex now) as [a|] eqn:Hsel.
    + apply selectAccount_Some in Hsel as (i & [[(c & Hc & Hhead) _]|[_ Hlru]]).
      * unfold in_headroom in Hhead.
        apply andb_true_iff in Hhead as [Helc Hsc].
        apply eligible_is_eligible in Helc; [|done].
        rewrite (Hall c Hc Helc) in Hsc. done.
      * exists i, a. split; [done|]. split.
        { destruct Hlru as (_ & HP & _). unfold in_softExceeded in HP.
          by apply andb_true_iff in HP as [_ ?]. }
        eapply lru_first_ext; [|exact Hlru].
        intros c Hc. unfold in_softExceeded.
        rewrite andb_true_iff, eligible_is_eligible; [|done].
        split; [by intros [? ?]|]. intros Helc. split; [done|]. by apply Hall.
    + apply eligible_is_eligible in Hel; [|done].
      rewrite selectAccount_None in Hsel. specialize (Hsel b Hb). congruence.
Qed.

Lemma selectAccount_prefers_headroom_witness :
  ∃ i a, selectAccount 1000000 store_low_quota [] 1000000 = Some a ∧
    lru_first (λ c, is_eligible [] 1000000 c ∧
                    isSoftQuotaExceeded 1000000 c = false)
              (accounts store_low_quota) i a.
Proof.
  refine (proj1 (selectAccount_prefers_headroom
                   1000000 store_low_quota [] 1000000 _) user_used_100 _ _ _).
  - lia.
  - apply list_elem_of_here.
  - split; [apply not_elem_of_nil|]. intros (t & Ht & _). discriminate Ht.
  - reflexivity.
Defined.

(** C1, as stated, fails: with no exclusions and no active cooldowns, a
    store holding a credential last used at 100 and a never-used credential
    whose fresh cached quota is at 5% yields the credential used at 100,
    although the other one has the smaller effective [lastUsedAt]. *)
Lemma selectAccount_global_lru_counterexample :
  accounts store_low_quota ≠ [] ∧
  (∀ a, a ∈ accounts store_low_quota → ¬ cooldown_active 1000000 a) ∧
  ¬ ∃ i a, selectAccount 1000000 store_low_quota [] 1000000 = Some a ∧
           lru_first (λ _, True) (accounts store_low_quota) i a.
Proof.
  split_and!.
  - done.
  - intros a Ha (t & Ht & _).
    assert (rateLimitedUntil a = None) as Hnone; [|congruence].
    clear Ht. revert a Ha. apply Forall_forall. by repeat constructor.
  - intros (i & a & Hsel & _ & _ & Hmin).
    vm_compute in Hsel. injection Hsel as <-.
    destruct (Hmin 1%nat user_low_quota eq_refl I) as [Hle _].
    vm_compute in Hle. by apply Hle.
Qed.

(** C1, amended. For every non-empty store with no exclusions and no active
    cooldowns, selection returns the credential with the smallest effective
    [lastUsedAt] (never used counts as 0, the least timestamp) within the
    preferred pool, ties broken by the original order in the store; the
    preferred pool is the credentials that are not soft-exceeded if there
    is one, else all of them.  When no credential, or every credential, is
    soft-exceeded, that is the globally smallest effective [lastUsedAt].
    A never-used credential of the pool wins over any credential used at a
    positive time. *)
Theorem selectAccount_lru_of_preferred_pool clock config now :
  accounts config ≠ [] →
  (∀ a, a ∈ accounts config → ¬ cooldown_active now a) →
  ∃ i a, selectAccount clock config [] now = Some a ∧
    lru_first (in_preferred_pool clock (accounts config)) (accounts config) i a ∧
    ((∀ b, b ∈ accounts config → isSoftQuotaExceeded clock b = false) ∨
     (∀ b, b ∈ accounts config → isSoftQuotaExceeded clock b = true) →
     lru_first (λ _, True) (accounts config) i a) ∧
    (∀ b t, b ∈ accounts config →
       in_preferred_pool clock (accounts config) b →
       lastUsed b = None → lastUsed a = Some t → t ≤ 0).
Proof.
  intros Hne Hcool.
  assert (∀ a, a ∈ accounts config → eligible [] now a = true) as Hel.
  { intros a Ha. apply eligible_intro; [apply not_elem_of_nil|].
    destruct (rateLimitActive now a) eqn:Hrl; [|done].
    apply rateLimitActive_cooldown in Hrl. by destruct (Hcool a Ha). }
  destruct (selectAccount clock config [] now) as [a|] eqn:Hsel; last first.
  { rewrite selectAccount_None in Hsel.
    destruct (accounts config) as [|b l] eqn:Hl; [done|].
    specialize (Hsel b (list_elem_of_here _ _)).
    rewrite (Hel b) in Hsel; [done|apply list_elem_of_here]. }
  apply selectAccount_Some in Hsel as (i & Hcase). exists i, a.
  assert (lru_first (in_preferred_pool clock (accounts config))
            (accounts config) i a) as Hpool.
  { destruct Hcase as [[(c & Hc & Hhead) Hlru]|[Hnone Hlru]];
      (eapply lru_first_ext; [|exact Hlru]); intros b Hb;
      unfold in_headroom, in_softExceeded, in_preferred_pool;
      rewrite (Hel b Hb); simpl.
    - rewrite negb_true_iff. split; [by intros ? _|]. intros H. apply H.
      exists c. split; [done|]. unfold in_headroom in Hhead.
      rewrite (Hel c Hc) in Hhead. by apply negb_true_iff in Hhead.
    - split.
      + intros Hsoft (c & Hc & Hcs).
        specialize (Hnone c Hc). unfold in_headroom in Hnone.
        rewrite (Hel c Hc), Hcs in Hnone. done.
      + intros _. specialize (Hnone b Hb). unfold in_headroom in Hnone.
        rewrite (Hel b Hb) in Hnone. by apply negb_false_iff in Hnone. }
  split_and!; [done|done|..].
  - intros Hall. eapply lru_first_ext; [|exact Hpool].
    intros b Hb. unfold in_preferred_pool. split; [done|]. intros _.
    destruct Hall as [Hall|Hall]; [intros _; by apply Hall|].
    intros (c & Hc & Hcs). rewrite (Hall c Hc) in Hcs. done.
  - intros b t Hb HPb Hbn Hat.
    destruct Hpool as (_ & _ & Hmin).
    apply list_elem_of_lookup_1 in Hb as [j Hj].
    destruct (Hmin j b Hj HPb) as [Hle _].
    unfold effectiveLastUsed in Hle. by rewrite Hbn, Hat in Hle.
Qed.

Lemma selectAccount_lru_of_preferred_pool_witness :
  ∃ i a, selectAccount 1000000 store_low_quota [] 1000000 = Some a ∧
    lru_first (in_preferred_pool 1000000 (accounts store_low_quota))
              (accounts store_low_quota) i a ∧
    ((∀ b, b ∈ accounts store_low_quota →
           isSoftQuotaExceeded 1000000 b = false) ∨
     (∀ b, b ∈ accounts store_low_quota →
           isSoftQuotaExceeded 1000000 b = true) →
     lru_first (λ _, True) (accounts store_low_quota) i a) ∧
    (∀ b t, b ∈ accounts store_low_quota →
       in_preferred_pool 1000000 (accounts store_low_quota) b →
       lastUsed b = None → lastUsed a = Some t → t ≤ 0).
Proof.
  apply (selectAccount_lru_of_preferred_pool 1000000 store_low_quota 1000000).
  - discriminate.
  - intros a Ha (t & Ht & _). revert a Ha t Ht.
    apply (Forall_forall (λ a, ∀ t, rateLimitedUntil a = Some t → False)).
    repeat constructor; intros t Ht; discriminate Ht.
Defined.

(** ** Soft-quota classification *)

Lemma isSoftQuotaExceeded_true clock a :
  isSoftQuotaExceeded clock a = true ↔ low_fresh_quota_at clock a.
Proof.
  unfold isSoftQuotaExceeded, low_fresh_quota_at, fresh_at.
  destruct (cachedImageQuota a) as [q|].
  - destruct (Z.gtb_spec (clock - updatedAt q) QUOTA_CACHE_TTL_MS) as [Hgt|Hle].
    + split; [done|]. intros (q' & [= <-] & Hfresh & _). lia.
    + rewrite Qle_bool_iff. split.
      * intros Hq. exists q. done.
      * by intros (q' & [= <-] & _ & Hq).
  - split; [done|]. by intros (q & ? & _).
Qed.

(** C4, as stated, fails: a never-used credential whose cached quota of 0
    was observed at time 0 is fresh and at or below the threshold by the
    reference timestamp [now = 0], yet with the clock at 1000000 selection
    classifies it as headroom and returns it ahead of a credential that has
    been used. *)
Lemma soft_quota_reference_time_counterexample :
  low_fresh_quota_at 0 user_quota_at_0 ∧
  isSoftQuotaExceeded 1000000 user_quota_at_0 = false ∧
  select_step 1000000 [] 0 ([], []) user_quota_at_0 = ([user_quota_at_0], []) ∧
  selectAccount 1000000 store_quota_at_0 [] 0 = Some user_quota_at_0.
Proof.
  split_and!; try reflexivity.
  exists (mkQuota 0 0). split_and!; [done|..].
  - unfold fresh_at. simpl. unfold QUOTA_CACHE_TTL_MS. lia.
  - by apply Qle_bool_iff.
Qed.

(** C4, amended. Freshness is judged against the wall clock ([Date.now()])
    at the time of the call, not against the reference timestamp handed to
    selection; the two agree when the reference timestamp is left to its
    default.  For every credential the selection loop considers (not
    excluded, no active cooldown): with a cached quota that is fresh by the
    clock ([clock - updatedAt <= freshnessWindow]) and a [remainingFraction]
    at or below the threshold it goes to the soft-exceeded pool; fresh and
    above the threshold, to the headroom pool; with a cached quota older
    than the freshness window, to the headroom pool whatever its
    [remainingFraction]; and with no cached quota, to the headroom pool. *)
Theorem soft_quota_classification clock ex now a available softQuotaExceeded :
  eligible ex now a = true →
  (∀ q, cachedImageQuota a = Some q → fresh_at clock q →
        (remainingFraction q <= SOFT_QUOTA_THRESHOLD)%Q →
        select_step clock ex now (available, softQuotaExceeded) a =
        (available, softQuotaExceeded ++ [a]))
  ∧ (∀ q, cachedImageQuota a = Some q → fresh_at clock q →
        ¬ (remainingFraction q <= SOFT_QUOTA_THRESHOLD)%Q →
        select_step clock ex now (available, softQuotaExceeded) a =
        (available ++ [a], softQuotaExceeded))
  ∧ (∀ q, cachedImageQuota a = Some q → ¬ fresh_at clock q →
        select_step clock ex now (available, softQuotaExceeded) a =
        (available ++ [a], softQuotaExceeded))
  ∧ (cachedImageQuota a = None →
        select_step clock ex now (available, softQuotaExceeded) a =
        (available ++ [a], softQuotaExceeded)).
Proof.
  intros Hel. apply eligible_true in Hel as [Hex Hrl].
  assert (∀ b,
    isSoftQuotaExceeded clock a = b →
    select_step clock ex now (available, softQuotaExceeded) a =
    if b then (available, softQuotaExceeded ++ [a])
    else (available ++ [a], softQuotaExceeded)) as Hstep.
  { intros b <-. unfold select_step.
    by rewrite bool_decide_eq_false_2, Hrl. }
  split_and!.
  - intros q Hq Hfresh Hlow. apply (Hstep true).
    apply isSoftQuotaExceeded_true. by exists q.
  - intros q Hq Hfresh Hhigh. apply (Hstep false).
    apply not_true_is_false. rewrite isSoftQuotaExceeded_true.
    intros (q' & Hq' & _ & Hlow).
    rewrite Hq in Hq'. injection Hq' as <-. done.
  - intros q Hq Hstale. apply (Hstep false).
    apply not_true_is_false. rewrite isSoftQuotaExceeded_true.
    intros (q' & Hq' & Hfresh & _).
    rewrite Hq in Hq'. injection Hq' as <-. done.
  - intros Hq. apply (Hstep false).
    apply not_true_is_false. rewrite isSoftQuotaExceeded_true.
    intros (q' & Hq' & _). congruence.
Qed.

Lemma soft_quota_classification_witness :
  (∀ q, cachedImageQuota user_low_quota = Some q → fresh_at 1000000 q →
        (remainingFraction q <= SOFT_QUOTA_THRESHOLD)%Q →
        select_step 1000000 [] 1000000 ([user_used_100], []) user_low_quota =
        ([user_used_100], [] ++ [user_low_quota]))
  ∧ (∀ q, cachedImageQuota user_low_quota = Some q → fresh_at 1000000 q →
        ¬ (remainingFraction q <= SOFT_QUOTA_THRESHOLD)%Q →
        select_step 1000000 [] 1000000 ([user_used_100], []) user_low_quota =
        ([user_used_100] ++ [user_low_quota], []))
  ∧ (∀ q, cachedImageQuota user_low_quota = Some q → ¬ fresh_at 1000000 q →
        select_step 1000000 [] 1000000 ([user_used_100], []) user_low_quota =
        ([user_used_100] ++ [user_low_quota], []))
  ∧ (cachedImageQuota user_low_quota = None →
        select_step 1000000 [] 1000000 ([user_used_100], []) user_low_quota =
        ([user_used_100] ++ [user_low_quota], [])).
Proof.
  apply (soft_quota_classification
           1000000 [] 1000000 user_low_quota [user_used_100] []).
  reflexivity.
Defined.

(** ** The recording operations *)

Lemma first_match_find key l i :
  first_match key l i ↔ ∃ a, list_find (λ a, email a = key) l = Some (i, a).
Proof.
  unfold first_match. split.
  - intros [(a & Hi & Ha) Hfirst]. exists a. apply list_find_Some.
    split_and!; [done..|]. intros j b Hj Hlt. by eapply Hfirst.
  - intros (a & (Hi & Ha & Hfirst)%list_find_Some). split; [by exists a|].
    intros j b Hlt Hj. by eapply Hfirst.
Qed.

Lemma update_found_unknown key f config :
  (∀ a, a ∈ accounts config → email a ≠ key) →
  update_found key f config = config.
Proof.
  intros Hnone. unfold update_found.
  destruct (list_find _ _) as [[i a]|] eqn:Hfind; [|done].
  apply list_find_Some in Hfind as (Hi & Ha & _).
  destruct (Hnone a); [by eapply list_elem_of_lookup_2|done].
Qed.

Lemma update_found_known key f config i :
  first_match key (accounts config) i →
  ∃ a, accounts config !! i = Some a ∧ email a = key ∧
       accounts (update_found key f config) = <[i := f a]> (accounts config).
Proof.
  intros (a & Hfind)%first_match_find. unfold update_found. rewrite Hfind.
  apply list_find_Some in Hfind as (Hi & Ha & _). by exists a.
Qed.

Lemma update_found_frame (same : Account → Account → Prop) key f config i :
  (∀ a, same a (f a)) →
  first_match key (accounts config) i →
  only_changed_at same i (accounts config)
    (accounts (update_found key f config)).
Proof.
  intros Hsame Hfirst.
  destruct (update_found_known key f config i Hfirst) as (a & Hi & _ & ->).
  split_and!.
  - apply length_insert.
  - intros j Hj. by apply list_lookup_insert_ne.
  - exists a, (f a). split_and!; [done| |done].
    apply list_lookup_insert_eq. by eapply lookup_lt_Some.
Qed.

Lemma known_key_first_match key l :
  (∃ a, a ∈ l ∧ email a = key) → ∃ i, first_match key l i.
Proof.
  intros (a & Ha & Hkey).
  destruct (list_find (λ a, email a = key) l) as [[i b]|] eqn:Hfind.
  - exists i. apply first_match_find. by exists b.
  - apply list_find_None in Hfind.
    rewrite Forall_forall in Hfind. by destruct (Hfind a Ha).
Qed.

(** C8. Each of the three recording operations changes only its target
    field, on the one record found by the identity key (the first record
    with that key): the store keeps its length, every other record is
    unchanged, and the record found keeps every other field.  When no
    record has the key, the store comes back unchanged: no record is
    changed or created.  The operations are total functions: none of them
    raises. *)
Theorem recording_changes_only_target clock config key now fraction reset :
  ((∀ a, a ∈ accounts config → email a ≠ key) →
     markUsed config key now = config ∧
     markRateLimited config key now = config ∧
     updateCachedQuota clock config key fraction reset = config)
  ∧ (∀ i, first_match key (accounts config) i →
     only_changed_at
       (λ a a', same_but_lastUsed a a' ∧ lastUsed a' = Some now)
       i (accounts config) (accounts (markUsed config key now)) ∧
     only_changed_at
       (λ a a', same_but_rateLimitedUntil a a' ∧
                rateLimitedUntil a' = Some (now + RATE_LIMIT_COOLDOWN_MS))
       i (accounts config) (accounts (markRateLimited config key now)) ∧
     only_changed_at
       (λ a a', same_but_cachedImageQuota a a' ∧
                cachedImageQuota a' =
                Some {| remainingFraction := fraction; resetTime := reset;
                        updatedAt := clock |})
       i (accounts config)
       (accounts (updateCachedQuota clock config key fraction reset))).
Proof.
  split.
  - intros Hnone. unfold markUsed, markRateLimited, updateCachedQuota.
    by rewrite !update_found_unknown.
  - intros i Hfirst. split_and!;
      (apply update_found_frame; [|done]); intros a; by repeat split.
Qed.

(** C9. For every store, every key some record of the store has, and every
    timestamp [now], after [markRateLimited(config, key, now)] the record
    found by that key has [rateLimitedUntil] equal to
    [now + RATE_LIMIT_COOLDOWN_MS], that is [now] plus five minutes,
    whatever cooldown was stored before. *)
Theorem markRateLimited_sets_cooldown config key now :
  (∃ a, a ∈ accounts config ∧ email a = key) →
  RATE_LIMIT_COOLDOWN_MS = 5 * 60 * 1000 ∧
  ∃ a', find_account key (markRateLimited config key now) = Some a' ∧
        rateLimitedUntil a' = Some (now + 300000).
Proof.
  intros (i & Hfirst)%known_key_first_match. split; [done|].
  pose proof Hfirst as (a & Hfind)%first_match_find.
  pose proof Hfind as (Hi & Ha & Hbefore)%list_find_Some.
  exists (set_rateLimitedUntil (now + RATE_LIMIT_COOLDOWN_MS) a).
  split; [|done].
  unfold find_account, markRateLimited, update_found. rewrite Hfind. simpl.
  set (a' := set_rateLimitedUntil _ a).
  assert (list_find (λ a, email a = key) (<[i:=a']> (accounts config))
          = Some (i, a')) as ->; [|done].
  apply list_find_Some. split_and!.
  - apply list_lookup_insert_eq. by eapply lookup_lt_Some.
  - done.
  - intros j b Hj Hlt. rewrite list_lookup_insert_ne in Hj by lia.
    by eapply Hbefore.
Qed.

Lemma markRateLimited_sets_cooldown_witness :
  RATE_LIMIT_COOLDOWN_MS = 5 * 60 * 1000 ∧
  ∃ a', find_account "user4" (markRateLimited store_mixed "user4" 50000)
        = Some a' ∧
        rateLimitedUntil a' = Some (50000 + 300000).
Proof.
  apply (markRateLimited_sets_cooldown store_mixed "user4" 50000).
  exists (mkAccount "user4" (Some 20) (Some 900) None).
  split; [|reflexivity].
  unfold store_mixed. simpl. apply list_elem_of_In. simpl. auto.
Defined.

(** ** Selection on the heap: the store is left alone *)

Lemma alter_at_length {A} (f : A → A) (base : list A) x rest :
  alter f (length base) (base ++ x :: rest) = base ++ f x :: rest.
Proof.
  replace (length base) with (length base + 0)%nat by lia.
  by rewrite alter_app_r.
Qed.

Lemma alter_after_length {A} (f : A → A) (base : list A) x y rest :
  alter f (S (length base)) (base ++ x :: y :: rest) = base ++ x :: f y :: rest.
Proof.
  replace (S (length base)) with (length base + 1)%nat by lia.
  by rewrite alter_app_r.
Qed.

Lemma lookup_after_length {A} (base : list A) x y rest :
  (base ++ x :: y :: rest) !! S (length base) = Some y.
Proof.
  replace (S (length base)) with (length base + 1)%nat by lia.
  by rewrite lookup_app_r, Nat.add_comm, Nat.add_sub by lia.
Qed.

(** The loop fills the two fresh arrays and touches nothing else. *)
Lemma for_each_select_body clock ex now o base elems av sq :
  for_each elems (select_body clock ex now (length base) (S (length base)))
    {| objs := o; arrs := base ++ [av; sq] |} =
  (tt, {| objs := o;
          arrs := base ++
            [av ++ List.filter (λ a, in_headroom clock ex now (o a)) elems;
             sq ++ List.filter (λ a, in_softExceeded clock ex now (o a)) elems] |}).
Proof.
  revert av sq. induction elems as [|a elems IH]; intros av sq; simpl.
  - by rewrite !app_nil_r.
  - unfold mbind, State_bind, select_body at 1, deref, mbind, State_bind.
    unfold in_headroom, in_softExceeded, eligible. simpl.
    destruct (bool_decide (email (o a) ∈ ex)); simpl; [apply IH|].
    destruct (rateLimitActive now (o a)); simpl; [apply IH|].
    destruct (isSoftQuotaExceeded clock (o a)); simpl.
    + rewrite alter_after_length, IH. by rewrite <- app_assoc.
    + rewrite alter_at_length, IH. by rewrite <- app_assoc.
Qed.

Lemma sort_insert_fmap {A B} (g : A → B) (compareFn : B → B → Z) x l :
  g <$> sort_insert (λ a b, compareFn (g a) (g b)) x l =
  sort_insert compareFn (g x) (g <$> l).
Proof.
  induction l as [|y l IH]; [done|].
  rewrite fmap_cons. cbn [sort_insert].
  destruct (compareFn (g x) (g y) <=? 0); [done|].
  by rewrite fmap_cons, IH.
Qed.

Lemma js_sort_fmap {A B} (g : A → B) (compareFn : B → B → Z) l :
  g <$> js_sort (λ a b, compareFn (g a) (g b)) l = js_sort compareFn (g <$> l).
Proof.
  induction l as [|x l IH]; [done|].
  rewrite fmap_cons. cbn [js_sort]. by rewrite sort_insert_fmap, IH.
Qed.

Lemma filter_fmap {A B} (g : A → B) (P : B → bool) l :
  g <$> List.filter (λ a, P (g a)) l = List.filter P (g <$> l).
Proof.
  induction l as [|x l IH]; [done|].
  rewrite fmap_cons. cbn [List.filter].
  destruct (P (g x)); [rewrite fmap_cons|]; by rewrite IH.
Qed.

Lemma head_fmap {A B} (g : A → B) l : head (g <$> l) = g <$> head l.
Proof. by destruct l. Qed.

Lemma lookup_at_length {A} (base : list A) x rest :
  (base ++ x :: rest) !! length base = Some x.
Proof. by apply list_lookup_middle. Qed.

Lemma selectAccount_heap_run clock r ex now h :
  (r < length (arrs h))%nat →
  ∀ elems av sq,
  elems = default [] (arrs h !! r) →
  av = List.filter (λ a, in_headroom clock ex now (objs h a)) elems →
  sq = List.filter (λ a, in_softExceeded clock ex now (objs h a)) elems →
  selectAccount_heap clock r ex now h =
  match av, sq with
  | [], [] => (None, {| objs := objs h; arrs := arrs h ++ [[]; []] |})
  | [], _ =>
      let sorted := js_sort (λ a b, compareLastUsed (objs h a) (objs h b)) sq in
      (head sorted, {| objs := objs h; arrs := arrs h ++ [[]; sorted] |})
  | _, _ =>
      let sorted := js_sort (λ a b, compareLastUsed (objs h a) (objs h b)) av in
      (head sorted, {| objs := objs h; arrs := arrs h ++ [sorted; sq] |})
  end.
Proof.
  intros Hr elems av sq Helems Hav Hsq.
  unfold selectAccount_heap, new_array, array_read.
  unfold mbind at 1 2 3 4, State_bind. cbn [arrs objs].
  rewrite length_app. cbn [length]. rewrite Nat.add_1_r.
  rewrite <- app_assoc. cbn [app].
  rewrite lookup_app_l by done. rewrite <- Helems.
  rewrite (for_each_select_body clock ex now (objs h) (arrs h) elems [] []).
  cbn [app]. rewrite <- Hav, <- Hsq.
  clear Hav Hsq Helems.
  unfold mbind, State_bind. cbn [arrs objs].
  rewrite lookup_at_length. cbn [default from_option id].
  destruct av as [|x av]; cbn [length Nat.ltb Nat.leb].
  - rewrite lookup_after_length. cbn [default from_option id].
    destruct sq as [|y sq]; cbn [length Nat.eqb]; [done|].
    unfold array_sort, array_update, modify, mret, State_ret.
    cbn [arrs objs].
    rewrite alter_after_length, lookup_after_length. done.
  - rewrite lookup_at_length. cbn [default from_option id length Nat.eqb].
    unfold array_sort, array_update, modify, mret, State_ret.
    cbn [arrs objs].
    rewrite alter_at_length, lookup_at_length. done.
Qed.


(** C10. Selection never changes the credential store: after a call, every
    account object has the fields it had, and the array of the store (like
    every array that existed before the call) holds the same references in
    the same order; the sort works on an array allocated by the call.  The
    reference returned is to the account the list model selects. *)
Theorem selectAccount_heap_preserves_store clock accountsRef ex now h :
  (accountsRef < length (arrs h))%nat →
  objs (selectAccount_heap clock accountsRef ex now h).2 = objs h ∧
  arrs (selectAccount_heap clock accountsRef ex now h).2 !! accountsRef
    = arrs h !! accountsRef ∧
  (∀ r, (r < length (arrs h))%nat →
     arrs (selectAccount_heap clock accountsRef ex now h).2 !! r = arrs h !! r) ∧
  store_of (selectAccount_heap clock accountsRef ex now h).2 accountsRef
    = store_of h accountsRef ∧
  objs h <$> (selectAccount_heap clock accountsRef ex now h).1
    = selectAccount clock (store_of h accountsRef) ex now.
Proof.
  intros Hr.
  rewrite (selectAccount_heap_run clock accountsRef ex now h Hr _ _ _
             eq_refl eq_refl eq_refl).
  set (elems := default [] (arrs h !! accountsRef)).
  set (cmp := λ a b, compareLastUsed (objs h a) (objs h b)).
  assert (∀ (res : option nat) extra r,
    (r < length (arrs h))%nat →
    arrs (res, {| objs := objs h; arrs := arrs h ++ extra |}).2 !! r
    = arrs h !! r) as Hframe.
  { intros res extra r Hlt. simpl. by apply lookup_app_l. }
  assert (objs h <$>
            match List.filter (λ a, in_headroom clock ex now (objs h a)) elems,
                  List.filter (λ a, in_softExceeded clock ex now (objs h a)) elems
            with
            | [], [] => None
            | [], sq => head (js_sort cmp sq)
            | av, _ => head (js_sort cmp av)
            end
          = selectAccount clock (store_of h accountsRef) ex now) as Hres.
  { rewrite selectAccount_pools. unfold store_of. cbn [accounts]. fold elems.
    rewrite <- !filter_fmap.
    destruct (List.filter (λ a, in_headroom clock ex now (objs h a)) elems)
      as [|x av] eqn:Hav.
    - cbn [fmap list_fmap].
      rewrite <- (js_sort_fmap (objs h) compareLastUsed), head_fmap.
      destruct (List.filter (λ a, in_softExceeded clock ex now (objs h a)) elems);
        reflexivity.
    - rewrite fmap_cons. cbv iota.
      by rewrite <- fmap_cons, <- (js_sort_fmap (objs h) compareLastUsed),
                 head_fmap. }
  rewrite <- Hres. unfold store_of.
  destruct (List.filter (λ a, in_headroom clock ex now (objs h a)) elems)
    as [|x av];
  [destruct (List.filter (λ a, in_softExceeded clock ex now (objs h a)) elems)
    as [|y sq]|];
    cbn zeta; rewrite !Hframe by done; split_and!; try done;
    intros r Hlt; by apply lookup_app_l.
Qed.

Lemma selectAccount_heap_preserves_store_witness :
  objs (selectAccount_heap 1000 0 [] 1000 (heap_of store_mixed)).2
    = objs (heap_of store_mixed) ∧
  arrs (selectAccount_heap 1000 0 [] 1000 (heap_of store_mixed)).2 !! 0%nat
    = arrs (heap_of store_mixed) !! 0%nat ∧
  (∀ r, (r < length (arrs (heap_of store_mixed)))%nat →
     arrs (selectAccount_heap 1000 0 [] 1000 (heap_of store_mixed)).2 !! r
     = arrs (heap_of store_mixed) !! r) ∧
  store_of (selectAccount_heap 1000 0 [] 1000 (heap_of store_mixed)).2 0
    = store_of (heap_of store_mixed) 0 ∧
  objs (heap_of store_mixed)
    <$> (selectAccount_heap 1000 0 [] 1000 (heap_of store_mixed)).1
    = selectAccount 1000 (store_of (heap_of store_mixed) 0) [] 1000.
Proof.
  apply (selectAccount_heap_preserves_store 1000 0 [] 1000 (heap_of store_mixed)).
  simpl. lia.
Defined.

(** The sort does reorder an array: the one the call allocated. *)
Example selectAccount_heap_sorts_fresh_array :
  selectAccount_heap 1000 0 [] 1000 (heap_of store_mixed) =
  (Some 0%nat,
   {| objs := objs (heap_of store_mixed);
      arrs := [[0; 1; 2; 3]; [0; 3; 2]; []]%nat |}).
Proof. reflexivity. Qed.

(** ** The executor *)

Section ExecutorProperties.

Variable parse : string → ImageGenerationResult.
Variable world : World.

Lemma attempt_result_class o :
  match classify parse o with
  | Success =>
      success (attempt_result parse o).1
      && truthy (imageData (attempt_result parse o).1) = true
  | CapacityUnavailable =>
      success (attempt_result parse o).1 = false ∧
      (attempt_result parse o).2 = 503
  | RateLimited =>
      success (attempt_result parse o).1 = false ∧
      (attempt_result parse o).2 = 429
  | Timeout | OtherError =>
      success (attempt_result parse o).1
      && truthy (imageData (attempt_result parse o).1) = false ∧
      (attempt_result parse o).2 ≠ 503 ∧ (attempt_result parse o).2 ≠ 429
  end.
Proof.
  destruct o as [|msg|status text]; cbn [classify attempt_result].
  - by cbn.
  - by cbn.
  - unfold response_ok.
    destruct (Z.eqb_spec status 429) as [->|H429]; [by cbn|].
    destruct (Z.eqb_spec status 503) as [->|H503]; [by cbn|].
    destruct (Z.leb_spec 200 status), (Z.leb_spec status 299); cbn;
      try done.
    destruct (success (parse text) && truthy (imageData (parse text)));
      done.
Qed.

Lemma retry_loop_step base re url n retry s :
  let pre := backoff_events base retry in
  let o := fetch world (trace s ++ pre) url in
  let res := (attempt_result parse o).1 in
  let tr := trace s ++ pre ++ [EvFetch url o] in
  retry_loop parse world base re url (S n) retry s =
  match classify parse o with
  | Success =>
      let q := getImageModelQuota world tr in
      (Some (with_referenceErrors_quota res (refErrs re) q),
       {| trace := tr ++ [EvQuota q]; allRateLimited := false;
          allCapacity := false; lastError := lastError s |})
  | CapacityUnavailable =>
      retry_loop parse world base re url n (retry + 1)
        {| trace := tr; allRateLimited := false;
           allCapacity := allCapacity s;
           lastError := str_or (error res) "No capacity" |}
  | RateLimited =>
      (None,
       {| trace := tr; allRateLimited := allRateLimited s;
          allCapacity := false;
          lastError := str_or (error res) "Rate limited" |})
  | Timeout | OtherError =>
      (Some (with_referenceErrors res (refErrs re)),
       {| trace := tr; allRateLimited := false; allCapacity := false;
          lastError := lastError s |})
  end.
Proof.
  intros pre o res tr. subst tr.
  assert (∃ s1, (if 0 <? retry then sleep (base * 2 ^ (retry - 1)) else mret tt) s
                = (tt, s1) ∧ trace s1 = trace s ++ pre ∧
                allRateLimited s1 = allRateLimited s ∧
                allCapacity s1 = allCapacity s ∧ lastError s1 = lastError s)
    as (s1 & Hs1 & Htr1 & Hrl1 & Hcap1 & Herr1).
  { subst pre. unfold backoff_events. destruct (0 <? retry).
    - eexists. split; [reflexivity|]. done.
    - exists s. split; [done|]. by rewrite app_nil_r. }
  cbn [retry_loop]. unfold mbind at 1, State_bind at 1. rewrite Hs1.
  unfold mbind at 1, State_bind at 1. unfold attemptGeneration, log, modify.
  rewrite Htr1. fold o.
  pose proof (attempt_result_class o) as Hclass. fold res.
  destruct (attempt_result parse o) as [result status] eqn:Hres.
  subst res. cbn [fst snd] in *.
  rewrite app_assoc, Hrl1, Hcap1, Herr1. clear Hs1 Htr1 Hrl1 Hcap1 Herr1 s1.
  destruct (classify parse o).
  - rewrite Hclass. reflexivity.
  - destruct Hclass as [-> ->]. reflexivity.
  - destruct Hclass as [-> ->]. reflexivity.
  - destruct Hclass as (-> & H503 & H429).
    apply Z.eqb_neq in H503, H429. rewrite H503, H429. reflexivity.
  - destruct Hclass as (-> & H503 & H429).
    apply Z.eqb_neq in H503, H429. rewrite H503, H429. reflexivity.
Qed.

Lemma attempts_on_app u l1 l2 :
  attempts_on u (l1 ++ l2) = (attempts_on u l1 + attempts_on u l2)%nat.
Proof. unfold attempts_on. by rewrite List.filter_app, length_app. Qed.

Lemma attempts_on_backoff u base retry :
  attempts_on u (backoff_events base retry) = 0%nat.
Proof. unfold backoff_events. by destruct (0 <? retry). Qed.

Lemma attempts_on_fetch u url o :
  attempts_on u [EvFetch url o] = if String.eqb url u then 1%nat else 0%nat.
Proof. unfold attempts_on. simpl. by destruct (String.eqb url u). Qed.

Lemma backoff_actions_S base url retry n :
  backoff_actions base url retry (S n) =
  (action <$> backoff_events base retry)
  ++ DoFetch url :: backoff_actions base url (retry + 1) n.
Proof.
  unfold backoff_actions. rewrite seqZ_cons by lia. cbn [flat_map].
  replace (Z.pred (Z.of_nat (S n))) with (Z.of_nat n) by lia.
  replace (Z.succ retry) with (retry + 1) by lia.
  rewrite <- app_assoc. f_equal.
  unfold backoff_events. by destruct (0 <? retry).
Qed.

(** An endpoint without capacity is tried until the retries run out. *)
Lemma retry_loop_all_capacity base re url n retry s :
  (∀ tr, classify parse (fetch world tr url) = CapacityUnavailable) →
  ∃ new err,
    retry_loop parse world base re url n retry s =
    (None, {| trace := trace s ++ new;
              allRateLimited := match n with O => allRateLimited s | _ => false end;
              allCapacity := allCapacity s;
              lastError := err |}) ∧
    action <$> new = backoff_actions base url retry n ∧
    attempts_on url new = n ∧
    (∀ u, u ≠ url → attempts_on u new = 0%nat).
Proof.
  intros Hcap. revert retry s. induction n as [|n IH]; intros retry s.
  - exists [], (lastError s). rewrite app_nil_r. by destruct s.
  - rewrite retry_loop_step. cbv zeta. rewrite Hcap.
    edestruct (IH (retry + 1)) as (new & err & -> & Hact & Hcount & Hother).
    cbn [trace allRateLimited allCapacity lastError].
    eexists (backoff_events base retry ++ [EvFetch url _] ++ new), err.
    split_and!.
    + rewrite <- !app_assoc. by destruct n.
    + rewrite backoff_actions_S, !fmap_app, Hact. done.
    + rewrite !attempts_on_app, attempts_on_backoff, attempts_on_fetch.
      rewrite String.eqb_refl, Hcount. done.
    + intros u Hu.
      rewrite !attempts_on_app, attempts_on_backoff, attempts_on_fetch.
      rewrite (Hother u Hu).
      destruct (String.eqb_spec url u); [congruence|done].
Qed.

(** A rate-limited endpoint is tried once. *)
Lemma endpoint_loop_all_rate_limited maxRetries base re urls s :
  (∀ tr u, u ∈ urls → classify parse (fetch world tr u) = RateLimited) →
  ∃ new err,
    endpoint_loop parse world maxRetries base re urls s =
    (None, {| trace := trace s ++ new;
              allRateLimited := allRateLimited s;
              allCapacity := match urls with [] => allCapacity s | _ => false end;
              lastError := err |}) ∧
    action <$> new = DoFetch <$> urls.
Proof.
  revert s. induction urls as [|url urls IH]; intros s Hrl.
  - exists [], (lastError s). rewrite app_nil_r. by destruct s.
  - cbn [endpoint_loop]. unfold mbind, State_bind.
    rewrite retry_loop_step. cbv zeta.
    rewrite Hrl by apply list_elem_of_here. cbn [backoff_events Z.ltb Z.compare].
    edestruct IH as (new & err & -> & Hact).
    { intros tr u Hu. apply Hrl. by apply list_elem_of_further. }
    cbn [trace allRateLimited allCapacity lastError app].
    eexists ([EvFetch url _] ++ new), err. split.
    + rewrite <- app_assoc. by destruct urls.
    + by rewrite fmap_app, Hact.
Qed.

Lemma endpoint_loop_all_capacity maxRetries base re urls s :
  (∀ tr u, u ∈ urls → classify parse (fetch world tr u) = CapacityUnavailable) →
  ∃ new err,
    endpoint_loop parse world maxRetries base re urls s =
    (None, {| trace := trace s ++ new;
              allRateLimited := match urls with [] => allRateLimited s | _ => false end;
              allCapacity := allCapacity s;
              lastError := err |}) ∧
    action <$> new = flat_map (λ u, backoff_actions base u 0 (S maxRetries)) urls.
Proof.
  revert s. induction urls as [|url urls IH]; intros s Hcap.
  - exists [], (lastError s). rewrite app_nil_r. by destruct s.
  - cbn [endpoint_loop]. unfold mbind, State_bind.
    destruct (retry_loop_all_capacity base re url (S maxRetries) 0 s)
      as (new1 & err1 & -> & Hact1 & _).
    { intros tr. apply Hcap, list_elem_of_here. }
    edestruct IH as (new & err & -> & Hact).
    { intros tr u Hu. apply Hcap. by apply list_elem_of_further. }
    cbn [trace allRateLimited allCapacity lastError].
    exists (new1 ++ new), err. split.
    + rewrite <- app_assoc. by destruct urls.
    + cbn [flat_map]. by rewrite fmap_app, Hact1, Hact.
Qed.

Lemma all_attempts_app c l1 l2 :
  all_attempts parse c (l1 ++ l2) =
  all_attempts parse c l1 && all_attempts parse c l2.
Proof. unfold all_attempts. apply forallb_app. Qed.

Lemma all_attempts_backoff c base retry :
  all_attempts parse c (backoff_events base retry) = true.
Proof. unfold backoff_events. by destruct (0 <? retry). Qed.

Lemma retry_loop_flags base re url n retry s :
  flags_track parse s →
  flags_track parse (retry_loop parse world base re url n retry s).2.
Proof.
  revert retry s. induction n as [|n IH]; intros retry s [Hrl Hcap]; [done|].
  rewrite retry_loop_step. cbv zeta.
  set (o := fetch world (trace s ++ backoff_events base retry) url).
  destruct (classify parse o) eqn:Hclass;
    try apply IH; unfold flags_track;
    cbn [snd trace allRateLimited allCapacity];
    rewrite ?all_attempts_app, ?all_attempts_backoff, <- ?Hrl, <- ?Hcap;
    cbn [all_attempts forallb]; rewrite Hclass;
    rewrite ?andb_true_r, ?andb_false_r; done.
Qed.

Lemma endpoint_loop_flags maxRetries base re urls s :
  flags_track parse s →
  flags_track parse (endpoint_loop parse world maxRetries base re urls s).2.
Proof.
  revert s. induction urls as [|url urls IH]; intros s Hs; [done|].
  cbn [endpoint_loop]. unfold mbind, State_bind.
  pose proof (retry_loop_flags base re url (S maxRetries) 0 s Hs) as H1.
  destruct (retry_loop parse world base re url (S maxRetries) 0 s) as [[r|] s1].
  - done.
  - by apply IH.
Qed.

Lemma classify_Success o :
  classify parse o = Success →
  success (attempt_result parse o).1 = true ∧
  truthy (imageData (attempt_result parse o).1) = true.
Proof.
  intros Hclass. pose proof (attempt_result_class o) as H.
  rewrite Hclass in H. by apply andb_true_iff in H.
Qed.

(** C2. If every attempt on an endpoint meets CapacityUnavailable, the
    executor stays on that endpoint for exactly [maxRetries + 1] attempts,
    sleeping [baseDelay * 2^(retry-1)] before attempt number [retry] for
    each [retry > 0], and then advances to the next endpoint.  With the
    endpoints [[E1; E2]] and [maxRetries = 2], if moreover E2 meets Success
    on its first attempt, the result is that success, after exactly 3
    attempts on E1 and one on E2. *)
Theorem capacity_retries_in_place E1 :
  (∀ tr, classify parse (fetch world tr E1) = CapacityUnavailable) →
  (∀ maxRetries baseDelay re rest s,
     ∃ new err,
       action <$> new = backoff_actions baseDelay E1 0 (S maxRetries) ∧
       attempts_on E1 new = S maxRetries ∧
       retry_loop parse world baseDelay re E1 (S maxRetries) 0 s =
       (None, {| trace := trace s ++ new; allRateLimited := false;
                 allCapacity := allCapacity s; lastError := err |}) ∧
       endpoint_loop parse world maxRetries baseDelay re (E1 :: rest) s =
       endpoint_loop parse world maxRetries baseDelay re rest
         {| trace := trace s ++ new; allRateLimited := false;
            allCapacity := allCapacity s; lastError := err |})
  ∧ (∀ E2 baseDelay re,
       (∀ tr, attempts_on E2 tr = 0%nat →
              classify parse (fetch world tr E2) = Success) →
       ∃ r s,
         execute parse world [E1; E2] 2 baseDelay re initial = (r, s) ∧
         success r = true ∧ truthy (imageData r) = true ∧
         action <$> trace s =
           [DoFetch E1; DoSleep (baseDelay * 2 ^ 0); DoFetch E1;
            DoSleep (baseDelay * 2 ^ 1); DoFetch E1; DoFetch E2; DoQuota] ∧
         attempts_on E1 (trace s) = 3%nat ∧
         attempts_on E2 (trace s) = 1%nat).
Proof.
  intros Hcap. split.
  - intros maxRetries baseDelay re rest s.
    destruct (retry_loop_all_capacity baseDelay re E1 (S maxRetries) 0 s Hcap)
      as (new & err & Hloop & Hact & Hcount & _).
    exists new, err. split_and!; [done..|].
    cbn [endpoint_loop]. unfold mbind, State_bind. by rewrite Hloop.
  - intros E2 baseDelay re Hok.
    assert (E2 ≠ E1) as Hne.
    { intros ->. specialize (Hok [] eq_refl). rewrite Hcap in Hok. done. }
    destruct (retry_loop_all_capacity baseDelay re E1 3 0 initial Hcap)
      as (new & err & Hloop & Hact & Hcount & Hother).
    unfold execute. cbn [endpoint_loop]. unfold mbind, State_bind.
    rewrite Hloop, retry_loop_step. cbv zeta.
    cbn [backoff_events Z.ltb Z.compare trace initial app lastError].
    rewrite app_nil_r.
    assert (attempts_on E2 new = 0%nat) as H0 by by apply Hother.
    rewrite (Hok new H0).
    destruct (classify_Success (fetch world new E2) (Hok new H0)) as [Hs Hi].
    eexists _, _. split; [reflexivity|].
    cbn [success imageData with_referenceErrors_quota trace].
    split_and!; [done..| | |].
    + rewrite !fmap_app, Hact. reflexivity.
    + rewrite !attempts_on_app, Hcount, !attempts_on_fetch.
      destruct (String.eqb_spec E2 E1); [done|]. reflexivity.
    + rewrite !attempts_on_app, H0, !attempts_on_fetch.
      by rewrite String.eqb_refl.
Qed.


(** C3. Both flags start true and follow the attempts: in the aggregate
    failure, [isRateLimited] says whether every attempt made was
    RateLimited and [isCapacityError] whether every attempt made was
    CapacityUnavailable.  With at least one endpoint: if every attempt on
    every endpoint is RateLimited, the aggregate failure has
    [isRateLimited = true] and [isCapacityError = false]; if every attempt
    on every endpoint is CapacityUnavailable, so that each endpoint runs out
    of retries, it has [isCapacityError = true] and [isRateLimited = false]. *)
Theorem aggregate_failure_flags urls maxRetries baseDelay re :
  urls ≠ [] →
  allRateLimited initial = true ∧ allCapacity initial = true
  ∧ (∀ r s,
       execute parse world urls maxRetries baseDelay re initial = (r, s) →
       (endpoint_loop parse world maxRetries baseDelay re urls initial).1 = None →
       success r = false ∧
       isRateLimited r = Some (all_attempts parse RateLimited (trace s)) ∧
       isCapacityError r =
         Some (all_attempts parse CapacityUnavailable (trace s)))
  ∧ ((∀ tr u, u ∈ urls → classify parse (fetch world tr u) = RateLimited) →
       ∃ r s,
         execute parse world urls maxRetries baseDelay re initial = (r, s) ∧
         success r = false ∧
         isRateLimited r = Some true ∧ isCapacityError r = Some false ∧
         action <$> trace s = DoFetch <$> urls)
  ∧ ((∀ tr u, u ∈ urls →
              classify parse (fetch world tr u) = CapacityUnavailable) →
       ∃ r s,
         execute parse world urls maxRetries baseDelay re initial = (r, s) ∧
         success r = false ∧
         isCapacityError r = Some true ∧ isRateLimited r = Some false ∧
         action <$> trace s =
           flat_map (λ u, backoff_actions baseDelay u 0 (S maxRetries)) urls).
Proof.
  intros Hne. split_and!; [done..| | |].
  - intros r s Hrun Hnone.
    assert (flags_track parse initial) as Hinit by done.
    apply (endpoint_loop_flags maxRetries baseDelay re urls) in Hinit.
    unfold execute, mbind, State_bind in Hrun.
    destruct (endpoint_loop parse world maxRetries baseDelay re urls initial)
      as [[r0|] s0]; [done|].
    injection Hrun as <- <-. destruct Hinit as [Hrl Hcap].
    cbn [snd] in Hrl, Hcap. cbn [failure success isRateLimited isCapacityError].
    by rewrite Hrl, Hcap.
  - intros Hrl.
    destruct (endpoint_loop_all_rate_limited maxRetries baseDelay re urls
                initial Hrl) as (new & err & Hloop & Hact).
    unfold execute, mbind, State_bind. rewrite Hloop.
    eexists _, _. split; [reflexivity|]. by destruct urls.
  - intros Hcap.
    destruct (endpoint_loop_all_capacity maxRetries baseDelay re urls
                initial Hcap) as (new & err & Hloop & Hact).
    unfold execute, mbind, State_bind. rewrite Hloop.
    eexists _, _. split; [reflexivity|]. by destruct urls.
Qed.

(** C7. A RateLimited attempt ends the retry loop of its endpoint at once:
    nothing more is sent to that endpoint and no sleep follows, and when it
    is the first attempt on an endpoint the executor goes on with the
    remaining endpoints.  A Timeout or OtherError attempt makes the executor
    return the failure of that attempt at once: no later event happens, so
    when the first endpoint meets it no other endpoint is tried. *)
Theorem outcome_control_flow maxRetries baseDelay re url rest :
  (∀ n retry s,
     classify parse
       (fetch world (trace s ++ backoff_events baseDelay retry) url)
       = RateLimited →
     ∃ o err,
       retry_loop parse world baseDelay re url (S n) retry s =
       (None, {| trace := trace s ++ backoff_events baseDelay retry
                          ++ [EvFetch url o];
                 allRateLimited := allRateLimited s;
                 allCapacity := false; lastError := err |}))
  ∧ (∀ s,
       classify parse (fetch world (trace s) url) = RateLimited →
       ∃ o err,
         endpoint_loop parse world maxRetries baseDelay re (url :: rest) s =
         endpoint_loop parse world maxRetries baseDelay re rest
           {| trace := trace s ++ [EvFetch url o];
              allRateLimited := allRateLimited s;
              allCapacity := false; lastError := err |})
  ∧ (∀ n retry s o,
       o = fetch world (trace s ++ backoff_events baseDelay retry) url →
       classify parse o = Timeout ∨ classify parse o = OtherError →
       retry_loop parse world baseDelay re url (S n) retry s =
       (Some (with_referenceErrors (attempt_result parse o).1 (refErrs re)),
        {| trace := trace s ++ backoff_events baseDelay retry
                    ++ [EvFetch url o];
           allRateLimited := false; allCapacity := false;
           lastError := lastError s |}))
  ∧ (∀ o,
       o = fetch world [] url →
       classify parse o = Timeout ∨ classify parse o = OtherError →
       execute parse world (url :: rest) maxRetries baseDelay re initial =
       (with_referenceErrors (attempt_result parse o).1 (refErrs re),
        {| trace := [EvFetch url o];
           allRateLimited := false; allCapacity := false;
           lastError := "" |}) ∧
       (∀ u, u ≠ url → attempts_on u [EvFetch url o] = 0%nat) ∧
       (classify parse o = Timeout →
        success (attempt_result parse o).1 = false ∧
        error (attempt_result parse o).1 = Some "Timeout after 120s"%string)).
Proof.
  split_and!.
  - intros n retry s Hrl. rewrite retry_loop_step. cbv zeta. rewrite Hrl.
    by eexists _, _.
  - intros s Hrl. cbn [endpoint_loop]. unfold mbind, State_bind.
    rewrite retry_loop_step. cbv zeta.
    cbn [backoff_events Z.ltb Z.compare app]. rewrite app_nil_r, Hrl.
    by eexists _, _.
  - intros n retry s o -> Hclass. rewrite retry_loop_step. cbv zeta.
    by destruct Hclass as [-> | ->].
  - intros o -> Hclass. split_and!.
    + unfold execute. cbn [endpoint_loop]. unfold mbind, State_bind.
      rewrite retry_loop_step. cbv zeta.
      cbn [backoff_events Z.ltb Z.compare app trace initial].
      by destruct Hclass as [-> | ->].
    + intros u Hu. rewrite attempts_on_fetch.
      destruct (String.eqb_spec url u); [congruence|done].
    + intros Htimeout. destruct (fetch world [] url) as [|msg|status text];
        cbn in Htimeout |- *; [done|done|].
      repeat case_match; done.
Qed.

End ExecutorProperties.

Lemma capacity_retries_in_place_witness :
  ∃ r s,
    execute parse_image (world_first (FetchResponse 503 "busy"))
      ["E1"; "E2"]%string 2 3000 [] initial = (r, s) ∧
    success r = true ∧ truthy (imageData r) = true ∧
    action <$> trace s =
      [DoFetch "E1"; DoSleep (3000 * 2 ^ 0); DoFetch "E1";
       DoSleep (3000 * 2 ^ 1); DoFetch "E1"; DoFetch "E2"; DoQuota] ∧
    attempts_on "E1" (trace s) = 3%nat ∧
    attempts_on "E2" (trace s) = 1%nat.
Proof.
  refine (proj2 (capacity_retries_in_place parse_image
                   (world_first (FetchResponse 503 "busy")) "E1" _)
                "E2"%string 3000 [] _).
  - intros tr. reflexivity.
  - intros tr _. reflexivity.
Defined.


Lemma aggregate_failure_flags_witness :
  ∃ r s,
    execute parse_image (world_all (FetchResponse 429 "slow down"))
      CLOUDCODE_FALLBACK_URLS CAPACITY_RETRY_COUNT
      CAPACITY_RETRY_BASE_DELAY_MS [] initial = (r, s) ∧
    success r = false ∧
    isRateLimited r = Some true ∧ isCapacityError r = Some false ∧
    action <$> trace s = DoFetch <$> CLOUDCODE_FALLBACK_URLS.
Proof.
  refine (proj1 (proj2 (proj2 (proj2
            (aggregate_failure_flags parse_image
               (world_all (FetchResponse 429 "slow down"))
               CLOUDCODE_FALLBACK_URLS CAPACITY_RETRY_COUNT
               CAPACITY_RETRY_BASE_DELAY_MS [] _)))) _).
  - discriminate.
  - intros tr u _. reflexivity.
Defined.

(** The scenarios, run. *)
Example run_capacity_then_success :
  execute parse_image (world_first (FetchResponse 503 "busy"))
    ["E1"; "E2"]%string 2 3000 [] initial =
  (parse_image "aW1n",
   {| trace := [ EvFetch "E1" (FetchResponse 503 "busy"); EvSleep 3000;
                 EvFetch "E1" (FetchResponse 503 "busy"); EvSleep 6000;
                 EvFetch "E1" (FetchResponse 503 "busy");
                 EvFetch "E2" (FetchResponse 200 "aW1n"); EvQuota None ];
      allRateLimited := false; allCapacity := false;
      lastError := "HTTP 503: busy" |}).
Proof. reflexivity. Qed.

Example run_rate_limited_then_success :
  execute parse_image (world_first (FetchResponse 429 "slow down"))
    ["E1"; "E2"]%string 2 3000 [] initial =
  (parse_image "aW1n",
   {| trace := [ EvFetch "E1" (FetchResponse 429 "slow down");
                 EvFetch "E2" (FetchResponse 200 "aW1n"); EvQuota None ];
      allRateLimited := false; allCapacity := false;
      lastError := "HTTP 429: slow down" |}).
Proof. reflexivity. Qed.

Example run_all_capacity :
  generateImage parse_image (world_all (FetchResponse 503 "busy"))
    (PrepareReady []) =
  (failure "HTTP 503: busy" (Some false) (Some true),
   flat_map (λ u, [ EvFetch u (FetchResponse 503 "busy"); EvSleep 3000;
                    EvFetch u (FetchResponse 503 "busy"); EvSleep 6000;
                    EvFetch u (FetchResponse 503 "busy"); EvSleep 12000;
                    EvFetch u (FetchResponse 503 "busy") ])
            CLOUDCODE_FALLBACK_URLS).
Proof. reflexivity. Qed.

Example run_other_error :
  execute parse_image (world_first (FetchResponse 500 "boom"))
    ["E1"; "E2"]%string 2 3000 ["bad ref"%string] initial =
  (with_referenceErrors
     (failure "HTTP 500: boom" (Some false) (Some false))
     (Some ["bad ref"%string]),
   {| trace := [EvFetch "E1" (FetchResponse 500 "boom")];
      allRateLimited := false; allCapacity := false; lastError := "" |}).
Proof. reflexivity. Qed.

Example run_timeout_first :
  execute parse_image (world_first FetchAbort)
    ["E1"; "E2"]%string 2 3000 [] initial =
  (failure "Timeout after 120s" None None,
   {| trace := [EvFetch "E1" FetchAbort];
      allRateLimited := false; allCapacity := false; lastError := "" |}).
Proof. reflexivity. Qed.

(** The tests of [accounts.test.ts], run on the model. *)
Example test_least_recently_used :
  email <$> selectAccount 0
    {| accounts := [ mkAccount "user1" (Some 300) None None;
                     mkAccount "user2" (Some 100) None None;
                     mkAccount "user3" (Some 200) None None ] |} [] 0
  = Some "user2"%string.
Proof. reflexivity. Qed.

Example test_never_used_first :
  email <$> selectAccount 0
    {| accounts := [ mkAccount "user1" (Some 100) None None;
                     mkAccount "user2" None None None;
                     mkAccount "user3" (Some 200) None None ] |} [] 0
  = Some "user2"%string.
Proof. reflexivity. Qed.

Example test_rate_limit_exclude_combo :
  email <$> selectAccount 1000
    {| accounts := [ mkAccount "user1" (Some 10) None None;
                     mkAccount "user2" None (Some 61000) None;
                     mkAccount "user3" (Some 30) None None;
                     mkAccount "user4" (Some 20) None None ] |}
    ["user1"%string] 1000
  = Some "user4"%string.
Proof. reflexivity. Qed.

Example test_round_robin :
  ∀ c0 c1 c2 c3,
    c0 = {| accounts := [ mkAccount "user1" None None None;
                          mkAccount "user2" None None None;
                          mkAccount "user3" None None None ] |} →
    c1 = markUsed c0 "user1" 100 →
    c2 = markUsed c1 "user2" 200 →
    c3 = markUsed c2 "user3" 300 →
    email <$> selectAccount 400 c0 [] 400 = Some "user1"%string ∧
    email <$> selectAccount 400 c1 [] 400 = Some "user2"%string ∧
    email <$> selectAccount 400 c2 [] 400 = Some "user3"%string ∧
    email <$> selectAccount 400 c3 [] 400 = Some "user1"%string.
Proof. intros c0 c1 c2 c3 -> -> -> ->. by vm_compute. Qed.

Example test_threshold_inclusive :
  email <$> selectAccount 1000000
    {| accounts := [ mkAccount "user1" None None
                       (Some (mkQuota SOFT_QUOTA_THRESHOLD 940000));
                     mkAccount "user2" (Some 999000) None None ] |} [] 1000000
  = Some "user2"%string.
Proof. reflexivity. Qed.

Example test_stale_quota_is_headroom :
  email <$> selectAccount 1000000
    {| accounts := [ mkAccount "user1" None None
                       (Some (mkQuota (2 # 100) 699000));
                     mkAccount "user2" (Some 999999) None None ] |} [] 1000000
  = Some "user1"%string.
Proof. reflexivity. Qed.

Example test_markUsed_sets_lastUsed :
  lastUsed <$> accounts (markUsed store_mixed "user2" 12345)
  = [Some 10; Some 12345; Some 30; Some 20].
Proof. reflexivity. Qed.

Example test_markRateLimited_unknown_email :
  markRateLimited store_mixed "unknown" 999 = store_mixed.
Proof. reflexivity. Qed.

Example test_updateCachedQuota_overwrites :
  cachedImageQuota <$>
    accounts (updateCachedQuota 2000000 store_low_quota "user2" (75 # 100)
                (Some "2026-03-01T00:00:00Z"%string))
  = [None;
     Some {| remainingFraction := 75 # 100;
             resetTime := Some "2026-03-01T00:00:00Z"%string;
             updatedAt := 2000000 |}].
Proof. reflexivity. Qed.

(** With two records under one key, [find] stops at the first. *)
Example markUsed_first_of_duplicates :
  lastUsed <$>
    accounts (markUsed {| accounts := [user_used_100; user_used_100] |}
                "user1" 777)
  = [Some 777; Some 100].
Proof. reflexivity. Qed.

(** ** How selection and the recording operations compose *)

Lemma selectAccount_selected clock config ex now a :
  selectAccount clock config ex now = Some a →
  a ∈ accounts config ∧ (email a ∉ ex) ∧ rateLimitActive now a = false.
Proof.
  intros (i & Hcase)%selectAccount_Some.
  assert (a ∈ accounts config ∧ eligible ex now a = true) as [Hin Hel].
  { destruct Hcase as [[_ (Hi & HP & _)]|[_ (Hi & HP & _)]];
      (split; [by eapply list_elem_of_lookup_2|]);
      unfold in_headroom, in_softExceeded in HP;
      by apply andb_true_iff in HP as [? _]. }
  by apply eligible_true in Hel as [? ?].
Qed.

Lemma update_found_emails key f config :
  (∀ a, email (f a) = email a) →
  email <$> accounts (update_found key f config) = email <$> accounts config.
Proof.
  intros Hf. unfold update_found.
  destruct (list_find _ _) as [[i a]|] eqn:Hfind; [|done].
  apply list_find_Some in Hfind as (Hi & _ & _). cbn [accounts].
  rewrite list_fmap_insert, Hf. apply list_insert_id.
  by rewrite list_lookup_fmap, Hi.
Qed.

Lemma find_account_update_found key f config :
  (∀ a, email (f a) = email a) →
  find_account key (update_found key f config)
  = f <$> find_account key config.
Proof.
  intros Hf. unfold find_account, update_found.
  destruct (list_find _ (accounts config)) as [[i a]|] eqn:Hfind.
  - pose proof Hfind as (Hi & Ha & Hbefore)%list_find_Some. cbn [accounts].
    assert (list_find (λ a, email a = key) (<[i:=f a]> (accounts config))
            = Some (i, f a)) as ->; [|done].
    apply list_find_Some. split_and!.
    + apply list_lookup_insert_eq. by eapply lookup_lt_Some.
    + by rewrite Hf.
    + intros j b Hj Hlt. rewrite list_lookup_insert_ne in Hj by lia.
      by eapply Hbefore.
  - by rewrite Hfind.
Qed.

Lemma find_account_known key config a :
  a ∈ accounts config → email a = key →
  ∃ a0, find_account key config = Some a0 ∧ email a0 = key.
Proof.
  intros Ha Hkey. unfold find_account.
  destruct (list_find _ _) as [[i b]|] eqn:Hfind.
  - apply list_find_Some in Hfind as (_ & ? & _). by exists b.
  - apply list_find_None in Hfind. rewrite Forall_forall in Hfind.
    by destruct (Hfind a Ha).
Qed.

(** With distinct identities, the record found by a key is the only
    record with that key. *)
Lemma find_account_unique key config a b :
  NoDup (email <$> accounts config) →
  find_account key config = Some a →
  b ∈ accounts config → email b = key → b = a.
Proof.
  intros Hnd Hfind Hb Hkey. unfold find_account in Hfind.
  destruct (list_find _ _) as [[i a']|] eqn:Hf; [|done].
  injection Hfind as ->.
  apply list_find_Some in Hf as (Hi & Ha & _).
  apply list_elem_of_lookup_1 in Hb as [j Hj].
  assert (i = j) as ->; [|congruence].
  eapply NoDup_lookup; [exact Hnd|..]; rewrite list_lookup_fmap.
  - by rewrite Hi.
  - rewrite Hj. simpl. congruence.
Qed.

Lemma update_found_other key f config c :
  c ∈ accounts config → email c ≠ key →
  c ∈ accounts (update_found key f config).
Proof.
  intros Hc Hne. unfold update_found.
  destruct (list_find _ _) as [[i a]|] eqn:Hfind; [|done].
  apply list_find_Some in Hfind as (Hi & Ha & _). cbn [accounts].
  apply list_elem_of_lookup_1 in Hc as [j Hj].
  apply list_elem_of_lookup_2 with j.
  rewrite list_lookup_insert_ne; [done|]. intros ->. congruence.
Qed.

Lemma update_found_found key f config b :
  (∀ a, email (f a) = email a) →
  NoDup (email <$> accounts config) →
  b ∈ accounts (update_found key f config) → email b = key →
  ∃ a, find_account key config = Some a ∧ b = f a.
Proof.
  intros Hf Hnd Hb Hkey.
  destruct (find_account_known key (update_found key f config) b Hb Hkey)
    as (b0 & Hfind & _).
  assert (b = b0) as <-.
  { eapply find_account_unique; [|exact Hfind|done..].
    by rewrite update_found_emails. }
  rewrite find_account_update_found in Hfind by done.
  destruct (find_account key config) as [a|]; [|done].
  injection Hfind as <-. by exists a.
Qed.

(** After [markRateLimited(config, key, t)], no selection made before
    [t + RATE_LIMIT_COOLDOWN_MS] returns the account with that key. *)
Theorem markRateLimited_then_select_skips clock config key t ex now b :
  NoDup (email <$> accounts config) →
  0 ≤ now < t + RATE_LIMIT_COOLDOWN_MS →
  selectAccount clock (markRateLimited config key t) ex now = Some b →
  email b ≠ key.
Proof.
  intros Hnd Hnow (Hb & _ & Hrl)%selectAccount_selected Hkey.
  destruct (update_found_found key
              (set_rateLimitedUntil (t + RATE_LIMIT_COOLDOWN_MS)) config b
              (λ _, eq_refl) Hnd Hb Hkey) as (a & _ & ->).
  unfold rateLimitActive in Hrl. cbn in Hrl.
  destruct (Z.eqb_spec (t + RATE_LIMIT_COOLDOWN_MS) 0); lia.
Qed.

Lemma markRateLimited_then_select_skips_witness :
  email user_used_500 ≠ "user1"%string.
Proof.
  apply (markRateLimited_then_select_skips
           1000 store_quota_at_0 "user1" 1000 [] 2000 user_used_500).
  - apply (bool_decide_unpack _). by vm_compute.
  - vm_compute. split; congruence.
  - reflexivity.
Defined.

(** After [markUsed(config, key, t)] at a time [t] later than every
    [lastUsed] of the store, selection does not return the account with
    that key as long as another eligible account is in the same pool. *)
Theorem markUsed_then_select_moves_on clock config a t ex now c b :
  NoDup (email <$> accounts config) →
  a ∈ accounts config →
  (∀ x, x ∈ accounts config → effectiveLastUsed x < t) →
  c ∈ accounts config → email c ≠ email a →
  eligible ex now c = true →
  isSoftQuotaExceeded clock c = isSoftQuotaExceeded clock a →
  selectAccount clock (markUsed config (email a) t) ex now = Some b →
  email b ≠ email a.
Proof.
  intros Hnd Ha Hlate Hc Hca Helc Hsoft Hsel Hkey.
  pose proof (update_found_other (email a) (set_lastUsed t) config c Hc Hca)
    as Hc'.
  apply selectAccount_Some in Hsel as (i & Hcase).
  assert (b ∈ accounts (markUsed config (email a) t)) as Hb.
  { destruct Hcase as [[_ (Hi & _)]|[_ (Hi & _)]];
      by eapply list_elem_of_lookup_2. }
  destruct (update_found_found (email a) (set_lastUsed t) config b
              (λ _, eq_refl) Hnd Hb Hkey) as (a0 & Hfind & ->).
  assert (a = a0) as <- by by eapply find_account_unique.
  apply list_elem_of_lookup_1 in Hc' as [j Hj].
  assert (effectiveLastUsed (set_lastUsed t a) = t) as Hkey_t by done.
  assert (isSoftQuotaExceeded clock (set_lastUsed t a)
          = isSoftQuotaExceeded clock a) as Hsoft_a by done.
  specialize (Hlate c Hc).
  destruct Hcase as [[_ (_ & HP & Hmin)]|[Hnone (_ & HP & Hmin)]].
  - unfold in_headroom in HP. apply andb_true_iff in HP as [_ HP].
    apply negb_true_iff in HP. rewrite Hsoft_a in HP.
    destruct (Hmin j c Hj) as [Hle _]; [|lia].
    unfold in_headroom. by rewrite Helc, Hsoft, HP.
  - unfold in_softExceeded in HP. apply andb_true_iff in HP as [_ HP].
    rewrite Hsoft_a in HP.
    destruct (Hmin j c Hj) as [Hle _]; [|lia].
    unfold in_softExceeded. by rewrite Helc, Hsoft, HP.
Qed.

Lemma markUsed_then_select_moves_on_witness :
  email user_used_500 ≠ email user_quota_at_0.
Proof.
  apply (markUsed_then_select_moves_on
           1000000 store_quota_at_0 user_quota_at_0 600 [] 1000000
           user_used_500 user_used_500).
  - apply (bool_decide_unpack _). by vm_compute.
  - apply list_elem_of_here.
  - apply Forall_forall. repeat constructor.
  - apply list_elem_of_further, list_elem_of_here.
  - discriminate.
  - reflexivity.
  - reflexivity.
  - reflexivity.
Defined.

(** After [updateCachedQuota] has recorded a fraction at or below the
    threshold for a key, a selection made while that observation is fresh
    returns the account with that key only if every other eligible
    account is soft-exceeded as well. *)
Theorem low_quota_observation_deprioritizes
    observed clock config key fraction reset ex now b c :
  NoDup (email <$> accounts config) →
  (fraction <= SOFT_QUOTA_THRESHOLD)%Q →
  clock - observed ≤ QUOTA_CACHE_TTL_MS →
  selectAccount clock (updateCachedQuota observed config key fraction reset)
    ex now = Some b →
  email b = key →
  c ∈ accounts config → email c ≠ key → eligible ex now c = true →
  isSoftQuotaExceeded clock c = true.
Proof.
  intros Hnd Hlow Hfresh Hsel Hkey Hc Hck Helc.
  pose proof (update_found_other key
    (set_cachedImageQuota {| remainingFraction := fraction;
                             resetTime := reset; updatedAt := observed |})
    config c Hc Hck) as Hc'.
  apply selectAccount_Some in Hsel as (i & Hcase).
  assert (b ∈ accounts (updateCachedQuota observed config key fraction reset))
    as Hb.
  { destruct Hcase as [[_ (Hi & _)]|[_ (Hi & _)]];
      by eapply list_elem_of_lookup_2. }
  destruct (update_found_found key
              (set_cachedImageQuota
                 {| remainingFraction := fraction; resetTime := reset;
                    updatedAt := observed |}) config b
              (λ _, eq_refl) Hnd Hb Hkey) as (a0 & Hfind & ->).
  assert (isSoftQuotaExceeded clock
            (set_cachedImageQuota
               {| remainingFraction := fraction; resetTime := reset;
                  updatedAt := observed |} a0) = true) as Hsoft.
  { apply isSoftQuotaExceeded_true. eexists. split; [reflexivity|].
    split; [exact Hfresh|exact Hlow]. }
  destruct Hcase as [[_ (_ & HP & _)]|[Hnone _]].
  - unfold in_headroom in HP. rewrite Hsoft in HP.
    by rewrite andb_false_r in HP.
  - specialize (Hnone c Hc'). unfold in_headroom in Hnone.
    rewrite Helc in Hnone. by apply negb_false_iff in Hnone.
Qed.

Lemma low_quota_observation_deprioritizes_witness :
  isSoftQuotaExceeded 1000000
    (mkAccount "user2" None None (Some (mkQuota (5 # 100) 999000))) = true.
Proof.
  apply (low_quota_observation_deprioritizes 999500 1000000
           {| accounts := [ mkAccount "user1" None None None;
                            mkAccount "user2" None None
                              (Some (mkQuota (5 # 100) 999000)) ] |}
           "user1" (1 # 100) None [] 1000000
           (set_cachedImageQuota
              {| remainingFraction := 1 # 100; resetTime := None;
                 updatedAt := 999500 |}
              (mkAccount "user1" None None None))).
  - apply (bool_decide_unpack _). by vm_compute.
  - by apply Qle_bool_iff.
  - vm_compute. congruence.
  - reflexivity.
  - reflexivity.
  - apply list_elem_of_further, list_elem_of_here.
  - discriminate.
  - reflexivity.
Defined.

(** ** The account rotation *)

Section RotationProperties.

Variable clock : nat → Z.
Variable gen : nat → Account → ImageGenerationResult.

(** What holds of the state at every turn of the loop holds where the
    loop ends. *)
Lemma rotate_invariant (I : Run → Prop) :
  (∀ s, I s → I (tick s)) →
  (∀ s now account attempt,
     I s →
     selectAccount now (run_config s) (run_exclude s) now = Some account →
     success (gen attempt account)
     && truthy (imageData (gen attempt account)) = false →
     I (record_failure clock account (gen attempt account) s)) →
  ∀ n attempt s, I s →
    match rotate clock gen n attempt s with
    | Failed s' => I s'
    | Generated account result s' =>
        ∃ s1 now,
          I s1 ∧
          selectAccount now (run_config s1) (run_exclude s1) now
            = Some account ∧
          success result = true ∧ truthy (imageData result) = true ∧
          s' = record_success clock account result s1
    end.
Proof.
  intros Htick Hfail. induction n as [|n IH]; intros attempt s Hs; [done|].
  cbn [rotate]. cbv zeta.
  destruct (selectAccount _ (run_config (tick s)) _ _) as [account|] eqn:Hsel.
  - destruct (success _ && truthy _) eqn:Hok.
    + apply andb_true_iff in Hok as [? ?].
      exists (tick s), (clock (run_reads s)). split_and!; auto.
    + apply IH. eapply Hfail; [by apply Htick|exact Hsel|exact Hok].
  - by apply Htick.
Qed.

Lemma record_failure_exclude account result s :
  run_exclude (record_failure clock account result s)
  = run_exclude s ++ [email account].
Proof.
  unfold record_failure. by destruct (truthy_flag (isRateLimited result)).
Qed.

Lemma record_failure_errors account result s :
  run_errors (record_failure clock account result s)
  = run_errors s ++ [email account +:+ ": " +:+ failure_reason result].
Proof.
  unfold record_failure. by destruct (truthy_flag (isRateLimited result)).
Qed.

Lemma record_failure_emails account result s :
  email <$> accounts (run_config (record_failure clock account result s))
  = email <$> accounts (run_config s).
Proof.
  unfold record_failure. destruct (truthy_flag (isRateLimited result));
    [|done].
  cbn. by apply update_found_emails.
Qed.

Lemma tried_length n attempt s :
  (length (tried (rotate clock gen n attempt s))
   ≤ length (run_exclude s) + n)%nat.
Proof.
  revert attempt s. induction n as [|n IH]; intros attempt s; [simpl; lia|].
  cbn [rotate]. cbv zeta.
  destruct (selectAccount _ (run_config (tick s)) _ _) as [account|];
    [|simpl; lia].
  destruct (success _ && truthy _).
  - cbn [tried]. unfold record_success.
    destruct (quota _); cbn; rewrite length_app; simpl; lia.
  - etrans; [apply IH|]. rewrite record_failure_exclude, length_app.
    simpl. lia.
Qed.

(** The rotation calls [generateImage] for at most [MAX_RETRIES] accounts,
    never twice under the same identity, and only for identities the store
    holds; a failed rotation has one error line for each account tried. *)
Theorem rotation_tries_distinct_accounts config :
  NoDup (tried (account_rotation clock gen config)) ∧
  (length (tried (account_rotation clock gen config)) ≤ MAX_RETRIES)%nat ∧
  (length (tried (account_rotation clock gen config))
   ≤ length (accounts config))%nat ∧
  (∀ e, e ∈ tried (account_rotation clock gen config) →
        ∃ a, a ∈ accounts config ∧ email a = e) ∧
  length (run_errors (final (account_rotation clock gen config)))
  = length (run_exclude (final (account_rotation clock gen config))).
Proof.
  pose proof (tried_length MAX_RETRIES 0 (start config)) as Hlen.
  set (I := λ s : Run,
    email <$> accounts (run_config s) = email <$> accounts config ∧
    NoDup (run_exclude s) ∧
    (∀ e, e ∈ run_exclude s → e ∈ email <$> accounts config) ∧
    length (run_errors s) = length (run_exclude s)).
  pose proof (rotate_invariant I) as Hinv.
  assert (∀ s now account,
    I s → selectAccount now (run_config s) (run_exclude s) now = Some account →
    (email account ∉ run_exclude s) ∧ email account ∈ email <$> accounts config)
    as Hsel.
  { intros s now account (Hem & _) (Hin & Hex & _)%selectAccount_selected.
    split; [done|]. rewrite <- Hem. by apply list_elem_of_fmap_2. }
  unfold account_rotation in *.
  specialize (Hinv (λ s Hs, Hs)).
  assert (∀ f,
    match f with
    | Failed s' => I s'
    | Generated account result s' =>
        ∃ s1 now, I s1 ∧
          selectAccount now (run_config s1) (run_exclude s1) now = Some account ∧
          success result = true ∧ truthy (imageData result) = true ∧
          s' = record_success clock account result s1
    end →
    (length (tried f) ≤ MAX_RETRIES)%nat →
    NoDup (tried f) ∧ (length (tried f) ≤ MAX_RETRIES)%nat ∧
    (length (tried f) ≤ length (accounts config))%nat ∧
    (∀ e, e ∈ tried f → ∃ a, a ∈ accounts config ∧ email a = e) ∧
    length (run_errors (final f)) = length (run_exclude (final f))) as Hfinish.
  { intros f Hf Hbound.
    assert (NoDup (tried f) ∧ (∀ e, e ∈ tried f → e ∈ email <$> accounts config)
            ∧ length (run_errors (final f)) = length (run_exclude (final f)))
      as (Hnd & Hsub & Herr).
    { destruct f as [account result s'|s'].
      - destruct Hf as (s1 & now & Hs1 & Hsel1 & _ & _ & ->).
        destruct (Hsel s1 now account Hs1 Hsel1) as [Hnew Hin].
        destruct Hs1 as (_ & Hnd & Hsub & Herr).
        assert (run_exclude (record_success clock account result s1)
                = run_exclude s1) as Hex
          by (unfold record_success; by destruct (quota result)).
        assert (run_errors (record_success clock account result s1)
                = run_errors s1) as Her
          by (unfold record_success; by destruct (quota result)).
        cbn [tried final]. rewrite Hex, Her. split_and!; [|idtac|done].
        + apply NoDup_app. split_and!; [done| |apply NoDup_singleton].
          intros e He ->%list_elem_of_singleton. done.
        + intros e [He| ->%list_elem_of_singleton]%elem_of_app; auto.
      - destruct Hf as (_ & Hnd & Hsub & Herr). done. }
    split_and!; [done..| |idtac|done].
    - rewrite <- (length_fmap email (accounts config)).
      apply submseteq_length, NoDup_submseteq; done.
    - intros e He. apply Hsub, list_elem_of_fmap in He as (a & -> & Ha).
      by exists a. }
  apply Hfinish; [|simpl in Hlen; exact Hlen].
  apply Hinv.
  - intros s now account attempt HI Hs _.
    destruct (Hsel s now account HI Hs) as [Hnew Hin].
    destruct HI as (Hem & Hnd & Hsub & Herr). unfold I.
    rewrite record_failure_emails, record_failure_exclude,
            record_failure_errors.
    split_and!; [done|..].
    + apply NoDup_app. split_and!; [done| |apply NoDup_singleton].
      intros e He ->%list_elem_of_singleton. done.
    + intros e [He| ->%list_elem_of_singleton]%elem_of_app; auto.
    + rewrite !length_app. simpl. lia.
  - unfold I. cbn. split_and!; [done|constructor| |done].
    intros e He. by apply elem_of_nil in He.
Qed.

(** Whatever the rotation changes in the accounts, it has written to disk:
    when it ends, either the last write holds the accounts as they are in
    memory, or nothing was written and nothing was changed.  After a
    success the accounts are always written. *)
Theorem rotation_persists_every_change config :
  match account_rotation clock gen config with
  | Generated _ _ s => run_disk s = Some (run_config s)
  | Failed s =>
      run_disk s = Some (run_config s) ∨
      (run_disk s = None ∧ run_config s = config)
  end.
Proof.
  pose proof (rotate_invariant (λ s,
    run_disk s = Some (run_config s) ∨
    (run_disk s = None ∧ run_config s = config))) as Hinv.
  unfold account_rotation.
  specialize (Hinv (λ s Hs, Hs)).
  match type of Hinv with (?A → _) => assert A as HA end.
  { intros s now account attempt HI _ _. unfold record_failure.
    destruct (truthy_flag (isRateLimited _)); [by left|exact HI]. }
  specialize (Hinv HA MAX_RETRIES 0%nat (start config)).
  destruct (rotate clock gen MAX_RETRIES 0 (start config))
    as [account result s|s].
  - destruct Hinv as (s1 & now & _ & _ & _ & _ & ->); [by right|].
    unfold record_success. by destruct (quota result).
  - apply Hinv. by right.
Qed.

(** A rotation that fails changes nothing in the store but cooldowns, and
    those only of accounts it tried: every record keeps its place and all
    its other fields, and its [rateLimitedUntil] is either what it was or
    a reading of the clock plus [RATE_LIMIT_COOLDOWN_MS]. *)
Theorem failed_rotation_only_sets_cooldowns config s :
  account_rotation clock gen config = Failed s →
  Forall2
    (λ a a',
       same_but_rateLimitedUntil a a' ∧
       (rateLimitedUntil a' = rateLimitedUntil a ∨
        (email a ∈ run_exclude s ∧
         ∃ k, rateLimitedUntil a' = Some (clock k + RATE_LIMIT_COOLDOWN_MS))))
    (accounts config) (accounts (run_config s)).
Proof.
  set (R := λ (ex : list string) (a a' : Account),
    same_but_rateLimitedUntil a a' ∧
    (rateLimitedUntil a' = rateLimitedUntil a ∨
     (email a ∈ ex ∧
      ∃ k, rateLimitedUntil a' = Some (clock k + RATE_LIMIT_COOLDOWN_MS)))).
  pose proof (rotate_invariant (λ s,
    Forall2 (R (run_exclude s)) (accounts config) (accounts (run_config s))))
    as Hinv.
  unfold account_rotation. intros Hrun.
  specialize (Hinv (λ s Hs, Hs)).
  match type of Hinv with (?A → _) => assert A as HA end.
  { intros s0 now account attempt HI _ _.
    rewrite record_failure_exclude.
    assert (Forall2 (R (run_exclude s0 ++ [email account]))
              (accounts config) (accounts (run_config s0))) as HI'.
    { eapply Forall2_impl; [exact HI|].
      intros a a' [Hsame [Hrl|(Hin & k & Hk)]]; (split; [done|]);
        [by left|right]. split; [|by exists k]. apply elem_of_app. by left. }
    unfold record_failure.
    destruct (truthy_flag (isRateLimited _)); [|exact HI'].
    cbn. unfold markRateLimited, update_found.
    destruct (list_find _ _) as [[i b]|] eqn:Hfind; [|exact HI'].
    apply list_find_Some in Hfind as (Hi & Hb & _). cbn [accounts].
    apply Forall2_same_length_lookup. split.
    { rewrite length_insert. by eapply Forall2_length. }
    intros j a a' Hja Hja'.
    destruct (decide (i = j)) as [->|Hne].
    - rewrite list_lookup_insert_eq in Hja' by by eapply lookup_lt_Some.
      injection Hja' as <-.
      destruct (Forall2_lookup_lr _ _ _ _ _ _ HI' Hja Hi)
        as [(He & Hr & Hat & Hp & Hm & Hl & Hq) _].
      split.
      + by repeat split.
      + right. split.
        * apply elem_of_app. right. apply list_elem_of_singleton. congruence.
        * by exists (run_reads s0).
    - rewrite list_lookup_insert_ne in Hja' by done.
      by eapply Forall2_lookup_lr. }
  specialize (Hinv HA MAX_RETRIES 0%nat (start config)).
  rewrite Hrun in Hinv. apply Hinv. cbn.
  apply Forall_Forall2_diag, Forall_forall. intros a _.
  split; [by repeat split|by left].
Qed.

(** When the rotation succeeds, the result it hands on is a success with
    an image, the account it names was not tried before in this call, and
    in the store the record found by its identity has [lastUsed] set to a
    reading of the clock; if the result carries a quota, that record's
    cached quota is the observation, stamped with the next reading. *)
Theorem generated_marks_account_used config account result s :
  account_rotation clock gen config = Generated account result s →
  success result = true ∧ truthy (imageData result) = true ∧
  (email account ∉ run_exclude s) ∧
  ∃ a' k,
    find_account (email account) (run_config s) = Some a' ∧
    lastUsed a' = Some (clock k) ∧
    match quota result with
    | Some q =>
        cachedImageQuota a' =
        Some {| remainingFraction := (remainingPercent q / 100)%Q;
                resetTime := Some (quotaResetTime q);
                updatedAt := clock (S k) |}
    | None => True
    end.
Proof.
  intros Hrun.
  pose proof (rotate_invariant (λ _, True) (λ _ _, I) (λ _ _ _ _ _ _ _, I)
                MAX_RETRIES 0%nat (start config) I) as Hinv.
  unfold account_rotation in Hrun. rewrite Hrun in Hinv.
  destruct Hinv as (s1 & now & _ & Hsel & Hok & Himg & ->).
  apply selectAccount_selected in Hsel as (Hin & Hex & _).
  destruct (find_account_known (email account) (run_config s1) account
              Hin eq_refl) as (a0 & Hfind & _).
  split_and!; [done..| |].
  - unfold record_success. by destruct (quota result).
  - unfold record_success, markAccountUsed. cbn.
    destruct (quota result) as [q|]; cbn.
    + eexists _, (run_reads s1).
      unfold updateCachedQuota, markUsed.
      rewrite !find_account_update_found, Hfind by done.
      split; [reflexivity|]. done.
    + eexists _, (run_reads s1). unfold markUsed.
      rewrite find_account_update_found, Hfind by done.
      split; [reflexivity|]. done.
Qed.

End RotationProperties.

Lemma find_account_update_found_ne key key' f config :
  key ≠ key' → (∀ a, email (f a) = email a) →
  find_account key (update_found key' f config) = find_account key config.
Proof.
  intros Hne Hf. unfold find_account, update_found.
  destruct (list_find (λ a, email a = key') _) as [[i a]|] eqn:Hfind'; [|done].
  apply list_find_Some in Hfind' as (Hi & Ha & _). cbn [accounts].
  destruct (list_find (λ a, email a = key) (accounts config))
    as [[j b]|] eqn:Hfind.
  - apply list_find_Some in Hfind as (Hj & Hb & Hbefore).
    assert (i ≠ j) as Hij by (intros ->; congruence).
    assert (list_find (λ a, email a = key) (<[i:=f a]> (accounts config))
            = Some (j, b)) as ->; [|done].
    apply list_find_Some. split_and!; [by rewrite list_lookup_insert_ne|done|].
    intros j' b' Hj' Hlt. destruct (decide (i = j')) as [->|Hne'].
    + rewrite list_lookup_insert_eq in Hj' by by eapply lookup_lt_Some.
      injection Hj' as <-. rewrite Hf. congruence.
    + rewrite list_lookup_insert_ne in Hj' by done. by eapply Hbefore.
  - apply list_find_None in Hfind.
    assert (list_find (λ a, email a = key) (<[i:=f a]> (accounts config))
            = None) as ->; [|done].
    apply list_find_None, Forall_insert; [done|]. rewrite Hf. congruence.
Qed.

Lemma generateImage_all_rate_limited parse world re :
  (∀ tr u, u ∈ CLOUDCODE_FALLBACK_URLS →
           classify parse (fetch world tr u) = RateLimited) →
  success (generateImage parse world (PrepareReady re)).1 = false ∧
  isRateLimited (generateImage parse world (PrepareReady re)).1 = Some true.
Proof.
  intros Hrl.
  destruct (endpoint_loop_all_rate_limited parse world CAPACITY_RETRY_COUNT
              CAPACITY_RETRY_BASE_DELAY_MS re CLOUDCODE_FALLBACK_URLS
              initial Hrl) as (new & err & Hloop & _).
  unfold generateImage, execute, mbind, State_bind. by rewrite Hloop.
Qed.

(** When every endpoint answers every account with HTTP 429, the rotation
    fails, reports each account it tried as rate-limited, and leaves each
    of them in the store with a cooldown of a clock reading plus
    [RATE_LIMIT_COOLDOWN_MS]. *)
Theorem all_rate_limited_rotation parse worlds res clock config :
  (∀ k a tr u, u ∈ CLOUDCODE_FALLBACK_URLS →
     classify parse (fetch (worlds k a) tr u) = RateLimited) →
  ∃ s,
    account_rotation clock
      (λ k a, (generateImage parse (worlds k a) (PrepareReady (res k a))).1)
      config = Failed s ∧
    run_errors s = (λ e, e +:+ ": rate-limited") <$> run_exclude s ∧
    ∀ e, e ∈ run_exclude s →
      ∃ a' k, find_account e (run_config s) = Some a' ∧
              rateLimitedUntil a' = Some (clock k + RATE_LIMIT_COOLDOWN_MS).
Proof.
  intros Hrl.
  set (gen := λ k a,
    (generateImage parse (worlds k a) (PrepareReady (res k a))).1).
  assert (∀ k a, success (gen k a) = false ∧
                 isRateLimited (gen k a) = Some true) as Hgen.
  { intros k a. apply generateImage_all_rate_limited. apply Hrl. }
  set (I := λ s : Run,
    run_errors s = (λ e, e +:+ ": rate-limited") <$> run_exclude s ∧
    ∀ e, e ∈ run_exclude s →
      ∃ a' k, find_account e (run_config s) = Some a' ∧
              rateLimitedUntil a' = Some (clock k + RATE_LIMIT_COOLDOWN_MS)).
  pose proof (rotate_invariant clock gen I (λ s Hs, Hs)) as Hinv.
  match type of Hinv with (?A → _) => assert A as HA end.
  { intros s now account attempt [Herr Hmarks] Hsel _.
    apply selectAccount_selected in Hsel as (Hin & Hex & _).
    destruct (Hgen attempt account) as [Hs Hr].
    unfold I. rewrite record_failure_exclude, record_failure_errors.
    unfold record_failure, failure_reason. rewrite Hr. cbn.
    split.
    - by rewrite fmap_app, Herr.
    - intros e [He| ->%list_elem_of_singleton]%elem_of_app.
      + destruct (Hmarks e He) as (a' & k & Hfind & Hk).
        exists a', k. split; [|done]. unfold markRateLimited.
        rewrite find_account_update_found_ne; [done| |done].
        intros ->. done.
      + destruct (find_account_known (email account) (run_config s) account
                    Hin eq_refl) as (a0 & Hfind & _).
        eexists _, (run_reads s). unfold markRateLimited.
        rewrite find_account_update_found, Hfind by done.
        split; [reflexivity|done]. }
  specialize (Hinv HA MAX_RETRIES 0%nat (start config)).
  unfold account_rotation.
  destruct (rotate clock gen MAX_RETRIES 0 (start config))
    as [account result s|s] eqn:Hrun.
  - destruct Hinv as (s1 & now & _ & Hsel & Hok & _).
    { split; [done|]. intros e He. by apply elem_of_nil in He. }
    exfalso. clear -Hrun Hgen Hok. revert Hrun.
    generalize (start config) 0%nat. generalize MAX_RETRIES.
    induction n as [|n IH]; intros s0 attempt; [done|].
    cbn [rotate]. cbv zeta.
    destruct (selectAccount _ _ _ _) as [acc|]; [|done].
    destruct (Hgen attempt acc) as [Hs _]. rewrite Hs. cbn. apply IH.
  - exists s. split; [done|]. apply Hinv.
    split; [done|]. intros e He. by apply elem_of_nil in He.
Qed.

Lemma all_rate_limited_rotation_witness :
  ∃ s,
    account_rotation (λ k, 1000 + Z.of_nat k)
      (λ k a, (generateImage parse_image
                 (world_all (FetchResponse 429 "slow down"))
                 (PrepareReady [])).1)
      store_mixed = Failed s ∧
    run_errors s = (λ e, e +:+ ": rate-limited") <$> run_exclude s ∧
    ∀ e, e ∈ run_exclude s →
      ∃ a' k, find_account e (run_config s) = Some a' ∧
              rateLimitedUntil a'
              = Some ((λ k, 1000 + Z.of_nat k) k + RATE_LIMIT_COOLDOWN_MS).
Proof.
  apply (all_rate_limited_rotation parse_image
           (λ _ _, world_all (FetchResponse 429 "slow down"))
           (λ _ _, []) (λ k, 1000 + Z.of_nat k) store_mixed).
  intros k a tr u _. reflexivity.
Defined.

Example rotation_rate_limited_run :
  account_rotation (λ k, 1000 + Z.of_nat k)
    (λ k a, (generateImage parse_image
               (world_all (FetchResponse 429 "slow down"))
               (PrepareReady [])).1)
    store_mixed
  = Failed
      {| run_config :=
           {| accounts :=
                [ mkAccount "user1" (Some 10) (Some 301001) None;
                  mkAccount "user2" None (Some 61000) None;
                  mkAccount "user3" (Some 30) (Some 301005) None;
                  mkAccount "user4" (Some 20) (Some 301003) None ] |};
         run_disk :=
           Some {| accounts :=
                [ mkAccount "user1" (Some 10) (Some 301001) None;
                  mkAccount "user2" None (Some 61000) None;
                  mkAccount "user3" (Some 30) (Some 301005) None;
                  mkAccount "user4" (Some 20) (Some 301003) None ] |};
         run_reads := 6;
         run_exclude := ["user1"; "user4"; "user3"]%string;
         run_errors := [ "user1: rate-limited"; "user4: rate-limited";
                         "user3: rate-limited" ]%string |}.
Proof. reflexivity. Qed.

(** ** Model detection *)

Lemma prefix_true_iff t s :
  String.prefix t s = true ↔ ∃ b, s = (t +:+ b)%string.
Proof.
  revert s. induction t as [|c t IH]; intros s.
  - split; [by exists s|]. intros _. by destruct s.
  - destruct s as [|d s]; [split; [done|by intros [? ?]]|].
    cbn [String.prefix].
    destruct (Ascii.ascii_dec c d) as [->|Hne].
    + rewrite IH. split; intros [b Hb]; exists b.
      * simpl. by rewrite Hb.
      * simpl in Hb. by injection Hb.
    + split; [done|]. intros [b Hb]. simpl in Hb. by injection Hb.
Qed.

Lemma includes_true_iff s t :
  includes s t = true ↔ ∃ a b, s = (a +:+ t +:+ b)%string.
Proof.
  induction s as [|c s IH]; cbn [includes]; rewrite orb_true_iff.
  - rewrite prefix_true_iff. split.
    + intros [[b Hb]|?]; [|done]. by exists ""%string, b.
    + intros (a & b & Hab). left. destruct a; [by exists b|done].
  - rewrite prefix_true_iff, IH. split.
    + intros [[b Hb]|(a & b & Hab)].
      * by exists ""%string, b.
      * exists (String c a), b. simpl. by rewrite Hab.
    + intros (a & b & Hab). destruct a as [|d a].
      * left. by exists b.
      * right. exists a, b. simpl in Hab. by injection Hab.
Qed.

Lemma candidates_include_image :
  Forall (λ c, includes (toLowerCase c) "image" = true) IMAGE_MODEL_CANDIDATES.
Proof. repeat constructor. Qed.

(** [detectImageModel] never invents a name: what it returns is a key of
    the response whose lower-case form contains ["image"]; and it returns
    null exactly when no key of the response does. *)
Theorem detectImageModel_returns_image_key response :
  (∀ m, detectImageModel response = Some m →
        m ∈ model_keys response ∧
        ∃ a b, toLowerCase m = (a +:+ "image" +:+ b)%string)
  ∧ (detectImageModel response = None ↔
     ∀ k, k ∈ model_keys response →
          ¬ ∃ a b, toLowerCase k = (a +:+ "image" +:+ b)%string).
Proof.
  unfold detectImageModel. cbv zeta.
  pose proof candidates_include_image as Hcand. rewrite Forall_forall in Hcand.
  destruct (list_find (λ c, c ∈ model_keys response) IMAGE_MODEL_CANDIDATES)
    as [[i c]|] eqn:Hfirst.
  - apply list_find_Some in Hfirst as (Hi & Hc & _).
    apply list_elem_of_lookup_2 in Hi. split.
    + intros m [= <-]. split; [done|]. apply includes_true_iff. by apply Hcand.
    + split; [done|]. intros Hnone. destruct (Hnone c Hc).
      apply includes_true_iff. by apply Hcand.
  - destruct (list_find _ (model_keys response)) as [[j k]|] eqn:Hsecond.
    + apply list_find_Some in Hsecond as (Hj & Hk & _).
      apply list_elem_of_lookup_2 in Hj.
      assert (truthy (Some k) = true) as ->.
      { destruct k; [discriminate Hk|done]. }
      split.
      * intros m [= <-]. split; [done|]. by apply includes_true_iff.
      * split; [done|]. intros Hnone. destruct (Hnone k Hj).
        by apply includes_true_iff.
    + split; [done|]. split; [|done]. intros _ k Hk Hin.
      apply list_find_None in Hsecond. rewrite Forall_forall in Hsecond.
      apply (Hsecond k Hk). by apply includes_true_iff.
Qed.

(** When the response offers one of the known candidates, the model
    chosen is the first candidate, in priority order, that it offers, in
    whatever order the response lists its models. *)
Theorem detectImageModel_priority response i c :
  IMAGE_MODEL_CANDIDATES !! i = Some c →
  c ∈ model_keys response →
  (∀ j c', (j < i)%nat → IMAGE_MODEL_CANDIDATES !! j = Some c' →
           c' ∉ model_keys response) →
  detectImageModel response = Some c ∧
  ∀ response', model_keys response' ≡ₚ model_keys response →
               detectImageModel response' = Some c.
Proof.
  intros Hi Hc Hbefore.
  assert (∀ r, model_keys r ≡ₚ model_keys response →
               detectImageModel r = Some c) as Hany.
  { intros r Hperm. unfold detectImageModel. cbv zeta.
    assert (list_find (λ c, c ∈ model_keys r) IMAGE_MODEL_CANDIDATES
            = Some (i, c)) as ->; [|done].
    apply list_find_Some. split_and!; [done|by rewrite Hperm|].
    intros j c' Hj Hlt. rewrite Hperm. by eapply Hbefore. }
  split; [by apply Hany|exact Hany].
Qed.

Lemma detectImageModel_priority_witness :
  detectImageModel
    {| models := Some [ ("gemini-3-pro-image"%string,
                         {| displayName := None; model := None;
                            quotaInfo := None |});
                        ("gemini-3.1-flash-image"%string,
                         {| displayName := None; model := None;
                            quotaInfo := None |}) ] |}
  = Some "gemini-3.1-flash-image"%string.
Proof.
  refine (proj1 (detectImageModel_priority _ 0 _ _ _ _)).
  - reflexivity.
  - apply list_elem_of_further, list_elem_of_here.
  - intros j c' Hlt. lia.
Defined.

Example test_detect_fallback_case_insensitive :
  detectImageModel
    {| models := Some [ ("gemini-2.5-flash"%string,
                         {| displayName := None; model := None;
                            quotaInfo := None |});
                        ("gemini-IMAGE-model"%string,
                         {| displayName := None; model := None;
                            quotaInfo := None |}) ] |}
  = Some "gemini-IMAGE-model"%string.
Proof. reflexivity. Qed.

Example test_detect_no_models :
  detectImageModel {| models := None |} = None.
Proof. reflexivity. Qed.

(** ** Content builders and sessions *)

Lemma truthy_Some_nonempty t : truthy (Some t) = true ↔ t ≠ ""%string.
Proof. destruct t; simpl; split; done. Qed.

Lemma model_part_Some part p :
  model_part part = Some p →
  truthy_flag (part_thought part) = false ∧ nonempty_part p ∧
  match p with
  | TextPart text => part_text part = Some text
  | InlineDataPart mimeType data => part_inlineData part = Some (mimeType, data)
  end.
Proof.
  unfold model_part. destruct (truthy_flag (part_thought part)); [done|].
  assert (∀ q, (if truthy (part_text part)
                then TextPart <$> part_text part else None) = Some q →
               nonempty_part q ∧
               match q with
               | TextPart text => part_text part = Some text
               | InlineDataPart _ _ => False
               end) as Htext.
  { intros q. destruct (part_text part) as [t|] eqn:Ht; [|done].
    destruct (truthy (Some t)) eqn:Htr; [|done]. cbn. intros [= <-].
    split; [by apply truthy_Some_nonempty|done]. }
  destruct (part_inlineData part) as [[m d]|].
  - destruct (truthy (Some d)) eqn:Hd; cbn [andb].
    + destruct (truthy (Some m)) eqn:Hm; cbn [andb].
      * intros [= <-]. split; [done|].
        split; [|done]. split; by apply truthy_Some_nonempty.
      * intros Hq. destruct (Htext p Hq) as [? ?]. destruct p; done.
    + intros Hq. destruct (Htext p Hq) as [? ?]. destruct p; done.
  - intros Hq. destruct (Htext p Hq) as [? ?]. destruct p; done.
Qed.

Lemma buildModelResponseContent_eq candidates :
  buildModelResponseContent (Some candidates)
  = match omap model_part (response_parts candidates) with
    | [] => None
    | ps => Some ps
    end.
Proof.
  assert (flat_map (λ candidate,
                omap model_part
                  match candidate_parts candidate with
                  | Some (Some cParts) => cParts
                  | _ => []
                  end) candidates
          = omap model_part (response_parts candidates)) as Hps0.
  { unfold response_parts.
    induction candidates as [|c cs IH]; [done|]. cbn [flat_map].
    by rewrite omap_app, IH. }
  unfold buildModelResponseContent. destruct candidates as [|c cs]; [done|].
  rewrite Hps0. by destruct (omap _ _).
Qed.

Lemma buildModelResponseContent_Some candidates ps :
  buildModelResponseContent (Some candidates) = Some ps →
  ps ≠ [] ∧
  ∀ p, p ∈ ps →
    nonempty_part p ∧
    ∃ part, part ∈ response_parts candidates ∧
            truthy_flag (part_thought part) = false ∧
            model_part part = Some p.
Proof.
  rewrite buildModelResponseContent_eq.
  destruct (omap model_part (response_parts candidates)) as [|p0 ps0] eqn:Hps;
    [done|].
  intros [= <-]. split; [done|]. intros p Hp. rewrite <- Hps in Hp.
  apply list_elem_of_omap in Hp as (part & Hpart & Hmp).
  destruct (model_part_Some part p Hmp) as (Hth & Hne & _).
  split; [done|]. by exists part.
Qed.

(** [buildModelResponseContent] never returns an empty list; every part
    it returns has something in it and comes from a response part that is
    not marked as a thought; it returns null exactly when no such response
    part has image data with a type or text; and removing the thoughts
    from the candidates beforehand changes nothing. *)
Theorem buildModelResponseContent_keeps_content candidates :
  (∀ ps, buildModelResponseContent (Some candidates) = Some ps →
     ps ≠ [] ∧
     ∀ p, p ∈ ps →
       nonempty_part p ∧
       ∃ part, part ∈ response_parts candidates ∧
               truthy_flag (part_thought part) = false ∧
               model_part part = Some p)
  ∧ (buildModelResponseContent (Some candidates) = None ↔
     ∀ part, part ∈ response_parts candidates → model_part part = None)
  ∧ buildModelResponseContent (Some (without_thoughts <$> candidates))
    = buildModelResponseContent (Some candidates).
Proof.
  split_and!.
  - apply buildModelResponseContent_Some.
  - rewrite buildModelResponseContent_eq. split.
    + intros Hnone part Hpart.
      destruct (model_part part) as [p|] eqn:Hmp; [|done].
      assert (p ∈ omap model_part (response_parts candidates)) as Hin
        by (apply list_elem_of_omap; by exists part).
      destruct (omap model_part (response_parts candidates)); [|done].
      by apply elem_of_nil in Hin.
    + intros Hall.
      destruct (omap model_part (response_parts candidates)) as [|p ps] eqn:Ho;
        [done|].
      assert (p ∈ omap model_part (response_parts candidates)) as Hin
        by (rewrite Ho; apply list_elem_of_here).
      apply list_elem_of_omap in Hin as (part & Hpart & Hmp).
      rewrite (Hall part Hpart) in Hmp. done.
  - rewrite !buildModelResponseContent_eq.
    assert (∀ l, omap model_part
                   (List.filter (λ p, negb (truthy_flag (part_thought p))) l)
                 = omap model_part l) as Hfilter.
    { induction l as [|x l IH]; [done|]. cbn [List.filter].
      destruct (truthy_flag (part_thought x)) eqn:Hth; cbn.
      - rewrite IH. unfold model_part at 2. by rewrite Hth.
      - by rewrite IH. }
    assert (omap model_part (response_parts (without_thoughts <$> candidates))
            = omap model_part (response_parts candidates)) as ->; [|done].
    unfold response_parts.
    induction candidates as [|x l IH]; [done|]. rewrite fmap_cons.
    cbn [flat_map]. rewrite !omap_app, IH. f_equal.
    unfold without_thoughts. cbn.
    destruct (candidate_parts x) as [[cParts|]|]; [|done..].
    apply Hfilter.
Qed.

(** The request ends with the current user turn, whose last part is the
    prompt after the reference images; the session history precedes it
    unchanged, and an absent history, an empty one and that of a session
    just created all give the same request. *)
Theorem buildContents_appends_current_turn prompt images sessionHistory :
  buildContents prompt images sessionHistory
  = default [] sessionHistory
    ++ [{| role := "user";
           parts := default [] images ++ [TextPart prompt] |}]
  ∧ ∀ clock sessionId,
      buildContents prompt images
        (Some (getSessionHistory (createSession clock sessionId)))
      = buildContents prompt images None.
Proof.
  split; [|done]. unfold buildContents.
  destruct sessionHistory as [[|t h]|]; done.
Qed.

(** Recording a success in a session only appends: the turns already
    there stay in front, the identity and the creation time stay, and
    what is added is the user turn with the prompt text alone, followed,
    if the response had content, by one model turn that is not empty and
    has no empty part. *)
Theorem record_turns_appends clock session prompt candidates :
  session_id (record_turns clock session prompt candidates)
    = session_id session ∧
  createdAt (record_turns clock session prompt candidates)
    = createdAt session ∧
  ∃ new,
    history (record_turns clock session prompt candidates)
      = history session ++ {| role := "user"; parts := [TextPart prompt] |} :: new ∧
    (new = [] ∨
     ∃ modelParts,
       new = [{| role := "model"; parts := modelParts |}] ∧
       modelParts ≠ [] ∧ Forall nonempty_part modelParts).
Proof.
  unfold record_turns. cbv zeta.
  destruct candidates as [cs|]; [|split_and!; [done..|]; exists []; split;
    [done|by left]].
  destruct (buildModelResponseContent (Some cs)) as [mp|] eqn:Hb.
  - split_and!; [done..|].
    exists [{| role := "model"; parts := mp |}]. split.
    + cbn. by rewrite <- app_assoc.
    + right. exists mp. split; [done|].
      destruct (buildModelResponseContent_Some cs mp Hb) as [Hne Hall].
      split; [done|].
      apply Forall_forall. intros p Hp. by destruct (Hall p Hp).
  - split_and!; [done..|]. exists []. split; [done|by left].
Qed.

(** ** Session file names *)

Lemma safeId_units_safe sessionId :
  Forall (λ u, safe_unit u = true) (safeId sessionId).
Proof.
  unfold safeId. apply Forall_fmap, Forall_forall. intros u _. simpl.
  by destruct (safe_unit u) eqn:Hu.
Qed.

Lemma safeId_fixed sessionId :
  Forall (λ u, safe_unit u = true) sessionId → safeId sessionId = sessionId.
Proof.
  unfold safeId. induction 1 as [|u l Hu _ IH]; [done|].
  rewrite fmap_cons, IH. by rewrite Hu.
Qed.

(** The file name made from a session id has the same length as the id
    and consists of letters, digits, [_] and [-] only, so it holds no path
    separator and no dot; sanitising is idempotent and leaves exactly the
    ids made of such characters alone, so every other id shares its file
    with a different id. *)
Theorem safeId_is_a_plain_name sessionId :
  length (safeId sessionId) = length sessionId ∧
  Forall (λ u, safe_unit u = true) (safeId sessionId) ∧
  (∀ u, u ∈ units "/\." → u ∉ safeId sessionId) ∧
  safeId (safeId sessionId) = safeId sessionId ∧
  (safeId sessionId = sessionId ↔ Forall (λ u, safe_unit u = true) sessionId) ∧
  (safeId sessionId ≠ sessionId →
   ∃ other, other ≠ sessionId ∧
            sessionFileName other = sessionFileName sessionId).
Proof.
  pose proof (safeId_units_safe sessionId) as Hsafe.
  split_and!.
  - unfold safeId. apply length_fmap.
  - done.
  - intros u Hu Hin. rewrite Forall_forall in Hsafe.
    specialize (Hsafe u Hin).
    assert (Forall (λ u, safe_unit u = false) (units "/\.")) as Hbad
      by by repeat constructor.
    rewrite Forall_forall in Hbad. by rewrite (Hbad u Hu) in Hsafe.
  - by apply safeId_fixed.
  - split; [intros <-; done|apply safeId_fixed].
  - intros Hne. exists (safeId sessionId). split; [done|].
    unfold sessionFileName. by rewrite safeId_fixed.
Qed.

Lemma replace_first_after (first : N) rest replacement s :
  first ∉ s →
  replace_first (first :: rest) replacement (s ++ first :: rest)
  = s ++ replacement.
Proof.
  intros Hs. induction s as [|u s IH].
  - cbn [app replace_first]. rewrite bool_decide_eq_true_2 by done.
    by rewrite drop_all, app_nil_r.
  - apply not_elem_of_cons in Hs as [Hu Hs]. cbn [app replace_first].
    rewrite bool_decide_eq_false_2.
    + by rewrite IH.
    + intros Hp. apply prefix_cons_inv_1 in Hp. congruence.
Qed.

(** Listing gives back the names sessions are saved under: from the file
    names of any session ids, [listSessions] recovers their sanitised
    ids, in order. *)
Theorem listed_sessions_roundtrip ids :
  listed_sessions (sessionFileName <$> ids) = safeId <$> ids.
Proof.
  unfold listed_sessions. induction ids as [|sessionId ids IH]; [done|].
  rewrite !fmap_cons. cbn [List.filter].
  rewrite bool_decide_eq_true_2
    by (unfold sessionFileName; by apply suffix_app_r).
  rewrite fmap_cons, IH. f_equal.
  unfold sessionFileName. change (units ".json") with (46 :: units "json")%N.
  rewrite replace_first_after; [by rewrite app_nil_r|].
  intros Hin. pose proof (safeId_units_safe sessionId) as Hsafe.
  rewrite Forall_forall in Hsafe. by specialize (Hsafe _ Hin).
Qed.

(** Files that are not session files are left out, and only the first
    [.json] of a name is removed. *)
Example listed_sessions_other_files :
  listed_sessions [units "a.json"; units "notes.txt"; units "b.json.json"]
  = [units "a"; units "b.json"].
Proof. reflexivity. Qed.

Example safeId_replaces_each_unit :
  safeId (units "../etc/passwd") = units "___etc_passwd".
Proof. reflexivity. Qed.

(** ** Reference images *)

Section ReferenceImagesProperties.

Variable loadReferenceImage : string → ContentPart + string.

Lemma foldl_load_step paths parts errors :
  foldl (load_step loadReferenceImage) (parts, errors) paths =
  (parts ++ omap (λ p, match loadReferenceImage p with
                       | inl part => Some part
                       | inr _ => None
                       end) paths,
   errors ++ omap (λ p, match loadReferenceImage p with
                        | inl _ => None
                        | inr message => Some (p +:+ ": " +:+ message)
                        end) paths).
Proof.
  revert parts errors. induction paths as [|p paths IH]; intros parts errors.
  - by rewrite !app_nil_r.
  - cbn [foldl load_step omap list_omap].
    destruct (loadReferenceImage p) as [part|message];
      rewrite IH; by rewrite <- app_assoc.
Qed.

(** [loadReferenceImages] looks at the first [MAX_REFERENCE_IMAGES] paths
    only: each of them gives either a part or an error line naming the
    path, both lists in the order of the paths, and any path after the
    tenth is neither loaded nor reported. *)
Theorem loadReferenceImages_accounts_for_first_ten paths :
  (length (loadReferenceImages loadReferenceImage paths).1
   + length (loadReferenceImages loadReferenceImage paths).2
   = length paths `min` MAX_REFERENCE_IMAGES)%nat ∧
  (loadReferenceImages loadReferenceImage paths).1
  = omap (λ p, match loadReferenceImage p with
               | inl part => Some part
               | inr _ => None
               end) (take MAX_REFERENCE_IMAGES paths) ∧
  (loadReferenceImages loadReferenceImage paths).2
  = omap (λ p, match loadReferenceImage p with
               | inl _ => None
               | inr message => Some (p +:+ ": " +:+ message)
               end) (take MAX_REFERENCE_IMAGES paths) ∧
  ∀ more,
    (MAX_REFERENCE_IMAGES ≤ length paths)%nat →
    loadReferenceImages loadReferenceImage (paths ++ more)
    = loadReferenceImages loadReferenceImage paths.
Proof.
  unfold loadReferenceImages. cbv zeta. rewrite foldl_load_step.
  cbn [fst snd app]. split_and!; [|done|done|].
  - rewrite Nat.min_comm, <- (length_take paths MAX_REFERENCE_IMAGES).
    generalize (take MAX_REFERENCE_IMAGES paths). intros l.
    induction l as [|p l IH]; [done|]. cbn [omap list_omap length].
    destruct (loadReferenceImage p); cbn [length]; lia.
  - intros more Hlen. rewrite take_app_le by done.
    by rewrite foldl_load_step.
Qed.

End ReferenceImagesProperties.

(** ** The executor: bounds, and when it reports a rate limit *)

Section ExecutorBounds.

Variable parse : string → ImageGenerationResult.
Variable world : World.

Lemma fetches_app l1 l2 : fetches (l1 ++ l2) = (fetches l1 + fetches l2)%nat.
Proof. unfold fetches. by rewrite List.filter_app, length_app. Qed.

Lemma slept_app l1 l2 : slept (l1 ++ l2) = slept l1 + slept l2.
Proof.
  unfold slept. induction l1 as [|e l1 IH]; [done|]. cbn [app foldr].
  destruct e; lia.
Qed.

(** One endpoint, entered at attempt number [retry] with [n] iterations
    left: at most [n] requests; and with what attempts [0] to [retry - 1]
    slept, [baseDelay * (2^(retry-1) - 1)], the sleeps stay within what
    attempts [0] to [retry + n - 1] sleep. *)
Lemma retry_loop_bounds baseDelay re url n retry s :
  0 ≤ baseDelay → 0 ≤ retry →
  ∃ new,
    trace (retry_loop parse world baseDelay re url n retry s).2
      = trace s ++ new ∧
    (fetches new ≤ n)%nat ∧
    0 ≤ slept new ∧
    slept new + baseDelay * (2 ^ Z.max 0 (retry - 1) - 1) ≤
      baseDelay * (2 ^ Z.max 0 (retry + Z.of_nat n - 1) - 1).
Proof.
  intros Hbase. revert retry s. induction n as [|n IH]; intros retry s Hretry.
  - exists []. rewrite app_nil_r, Z.add_0_r. cbn [retry_loop snd slept foldr].
    split_and!; done.
  - rewrite retry_loop_step. cbv zeta.
    set (pre := backoff_events baseDelay retry).
    set (o := fetch world (trace s ++ pre) url).
    assert (fetches pre = 0%nat ∧ 0 ≤ slept pre ∧
            slept pre + baseDelay * (2 ^ Z.max 0 (retry - 1) - 1)
            ≤ baseDelay * (2 ^ Z.max 0 (retry + 1 - 1) - 1)) as (Hf & Hs0 & Hs).
    { subst pre. unfold backoff_events.
      destruct (Z.ltb_spec 0 retry); cbn.
      - rewrite !Z.max_r by lia.
        replace (retry + 1 - 1) with (Z.succ (retry - 1)) by lia.
        rewrite Z.pow_succ_r by lia.
        assert (0 < 2 ^ (retry - 1)) by (apply Z.pow_pos_nonneg; lia).
        split_and!; [done|nia|nia].
      - replace retry with 0 by lia.
        replace (Z.max 0 (0 - 1)) with 0 by lia.
        replace (Z.max 0 (0 + 1 - 1)) with 0 by lia.
        change (2 ^ 0) with 1. cbn [slept foldr]. split_and!; [done|lia|lia]. }
    assert (baseDelay * (2 ^ Z.max 0 (retry + 1 - 1) - 1)
            ≤ baseDelay * (2 ^ Z.max 0 (retry + Z.of_nat (S n) - 1) - 1))
      as Hmono.
    { apply Z.mul_le_mono_nonneg_l; [done|].
      assert (2 ^ Z.max 0 (retry + 1 - 1)
              ≤ 2 ^ Z.max 0 (retry + Z.of_nat (S n) - 1))
        by (apply Z.pow_le_mono_r; lia). lia. }
    destruct (classify parse o).
    + eexists (pre ++ [EvFetch url o] ++ [EvQuota _]). cbn [snd trace].
      split_and!.
      * by rewrite <- !app_assoc.
      * rewrite !fetches_app, Hf. cbn. lia.
      * rewrite !slept_app. cbn. lia.
      * rewrite !slept_app. cbn. lia.
    + exists (pre ++ [EvFetch url o]). cbn [snd trace].
      split_and!; [done|..].
      * rewrite !fetches_app, Hf. cbn. lia.
      * rewrite !slept_app. cbn. lia.
      * rewrite !slept_app. cbn. lia.
    + edestruct (IH (retry + 1)) as (new & -> & Hfn & Hsn0 & Hsn); [lia|].
      cbn [trace]. exists (pre ++ [EvFetch url o] ++ new).
      split_and!.
      * by rewrite <- !app_assoc.
      * rewrite !fetches_app, Hf. cbn. lia.
      * rewrite !slept_app. cbn. lia.
      * rewrite !slept_app. cbn.
        replace (retry + Z.of_nat (S n)) with (retry + 1 + Z.of_nat n) by lia.
        lia.
    + exists (pre ++ [EvFetch url o]). cbn [snd trace].
      split_and!; [done|..].
      * rewrite !fetches_app, Hf. cbn. lia.
      * rewrite !slept_app. cbn. lia.
      * rewrite !slept_app. cbn. lia.
    + exists (pre ++ [EvFetch url o]). cbn [snd trace].
      split_and!; [done|..].
      * rewrite !fetches_app, Hf. cbn. lia.
      * rewrite !slept_app. cbn. lia.
      * rewrite !slept_app. cbn. lia.
Qed.

Lemma endpoint_loop_bounds maxRetries baseDelay re urls s :
  0 ≤ baseDelay →
  ∃ new,
    trace (endpoint_loop parse world maxRetries baseDelay re urls s).2
      = trace s ++ new ∧
    (fetches new ≤ length urls * S maxRetries)%nat ∧
    0 ≤ slept new ∧
    slept new ≤
      Z.of_nat (length urls) * (baseDelay * (2 ^ Z.of_nat maxRetries - 1)).
Proof.
  intros Hbase. revert s. induction urls as [|url urls IH]; intros s.
  - exists []. rewrite app_nil_r. cbn. split_and!; [done|lia..].
  - cbn [endpoint_loop]. unfold mbind, State_bind.
    destruct (retry_loop_bounds baseDelay re url (S maxRetries) 0 s)
      as (new1 & Htr1 & Hf1 & Hs10 & Hs1); [done..|].
    assert (0 ≤ baseDelay * (2 ^ Z.of_nat maxRetries - 1)) as Hterm.
    { apply Z.mul_nonneg_nonneg; [done|].
      assert (0 < 2 ^ Z.of_nat maxRetries) by (apply Z.pow_pos_nonneg; lia).
      lia. }
    assert (slept new1 ≤ baseDelay * (2 ^ Z.of_nat maxRetries - 1)) as Hs1'.
    { replace (Z.max 0 (0 + Z.of_nat (S maxRetries) - 1))
        with (Z.of_nat maxRetries) in Hs1 by lia.
      replace (Z.max 0 (0 - 1)) with 0 in Hs1 by lia.
      change (2 ^ 0 - 1) with 0 in Hs1.
      by rewrite Z.mul_0_r, Z.add_0_r in Hs1. }
    destruct (retry_loop parse world baseDelay re url (S maxRetries) 0 s)
      as [[r|] s1]; cbn [snd] in Htr1.
    + exists new1. cbn [snd length]. split_and!; [done|lia|done|nia].
    + destruct (IH s1) as (new & -> & Hf & Hs0 & Hs). rewrite Htr1.
      exists (new1 ++ new). rewrite <- app_assoc.
      split_and!; [done|..].
      * rewrite fetches_app. cbn [length]. lia.
      * rewrite slept_app. lia.
      * rewrite slept_app. cbn [length]. nia.
Qed.

(** One call of the executor sends at most [maxRetries + 1] requests per
    endpoint and sleeps at most [baseDelay * (2^maxRetries - 1)] per
    endpoint; with the constants of the code, at most 12 requests and 63
    seconds of sleep. *)
Theorem execute_is_bounded urls maxRetries baseDelay re :
  0 ≤ baseDelay →
  (fetches (trace (execute parse world urls maxRetries baseDelay re initial).2)
   ≤ length urls * S maxRetries)%nat ∧
  0 ≤ slept (trace (execute parse world urls maxRetries baseDelay re initial).2)
    ≤ Z.of_nat (length urls) * (baseDelay * (2 ^ Z.of_nat maxRetries - 1)) ∧
  ∀ re',
    (fetches (generateImage parse world (PrepareReady re')).2 ≤ 12)%nat ∧
    slept (generateImage parse world (PrepareReady re')).2 ≤ 63000.
Proof.
  intros Hbase.
  assert (∀ urls' maxRetries' baseDelay' re',
    0 ≤ baseDelay' →
    trace (execute parse world urls' maxRetries' baseDelay' re' initial).2
    = trace (endpoint_loop parse world maxRetries' baseDelay' re' urls'
               initial).2) as Hexec.
  { intros urls' m b re' _. unfold execute, mbind, State_bind.
    by destruct (endpoint_loop parse world m b re' urls' initial) as [[r|] s]. }
  split; [|split].
  - rewrite Hexec by done.
    destruct (endpoint_loop_bounds maxRetries baseDelay re urls initial Hbase)
      as (new & -> & Hf & _). done.
  - rewrite Hexec by done.
    destruct (endpoint_loop_bounds maxRetries baseDelay re urls initial Hbase)
      as (new & -> & _ & Hs0 & Hs). done.
  - intros re'. unfold generateImage.
    pose proof (Hexec CLOUDCODE_FALLBACK_URLS CAPACITY_RETRY_COUNT
                  CAPACITY_RETRY_BASE_DELAY_MS re') as Htr.
    destruct (execute parse world CLOUDCODE_FALLBACK_URLS CAPACITY_RETRY_COUNT
                CAPACITY_RETRY_BASE_DELAY_MS re' initial) as [r s].
    cbn [snd] in *. rewrite Htr by done.
    destruct (endpoint_loop_bounds CAPACITY_RETRY_COUNT
                CAPACITY_RETRY_BASE_DELAY_MS re' CLOUDCODE_FALLBACK_URLS
                initial) as (new & -> & Hf & _ & Hs); [done|].
    cbn in Hf. cbn [trace initial app]. split; [done|].
    etrans; [exact Hs|]. by vm_compute.
Qed.

(** [parseSSEResponse] builds its results without a rate-limit flag. *)
Hypothesis parse_no_flag :
  ∀ text, truthy_flag (isRateLimited (parse text)) = false.

Lemma attempt_no_flag o :
  classify parse o ≠ RateLimited →
  truthy_flag (isRateLimited (attempt_result parse o).1) = false.
Proof.
  destruct o as [|msg|status text]; cbn [classify attempt_result]; [done..|].
  destruct (Z.eqb_spec status 429) as [->|H429]; [done|]. intros _.
  destruct (negb (response_ok status)); [done|apply parse_no_flag].
Qed.

Lemma retry_loop_returned baseDelay re url n retry s r s' :
  retry_loop parse world baseDelay re url n retry s = (Some r, s') →
  truthy_flag (isRateLimited r) = false ∧ allRateLimited s' = false.
Proof.
  revert retry s. induction n as [|n IH]; intros retry s; [done|].
  rewrite retry_loop_step. cbv zeta.
  set (o := fetch world (trace s ++ backoff_events baseDelay retry) url).
  pose proof (attempt_no_flag o) as Hflag.
  destruct (classify parse o); [| |apply IH| |];
    intros [= <- <-]; (split; [|done]); try (by apply Hflag); done.
Qed.

Lemma endpoint_loop_returned maxRetries baseDelay re urls s r s' :
  endpoint_loop parse world maxRetries baseDelay re urls s = (Some r, s') →
  truthy_flag (isRateLimited r) = false ∧ allRateLimited s' = false.
Proof.
  revert s. induction urls as [|url urls IH]; intros s; [done|].
  cbn [endpoint_loop]. unfold mbind, State_bind.
  destruct (retry_loop parse world baseDelay re url (S maxRetries) 0 s)
    as [[r1|] s1] eqn:Hloop.
  - intros [= <- <-]. by eapply retry_loop_returned.
  - apply IH.
Qed.

Lemma endpoint_loop_one_attempt_each maxRetries baseDelay re urls s s' :
  0 ≤ baseDelay →
  endpoint_loop parse world maxRetries baseDelay re urls s = (None, s') →
  ∃ new,
    trace s' = trace s ++ new ∧
    (all_attempts parse RateLimited new = true →
     action <$> new = DoFetch <$> urls).
Proof.
  intros Hbase. revert s. induction urls as [|url urls IH]; intros s.
  - intros [= <-]. exists []. by rewrite app_nil_r.
  - cbn [endpoint_loop]. unfold mbind, State_bind.
    pose proof (retry_loop_step parse world baseDelay re url maxRetries 0 s)
      as Hstep. cbv zeta in Hstep.
    cbn [backoff_events Z.ltb Z.compare app] in Hstep.
    rewrite app_nil_r in Hstep.
    set (o := fetch world (trace s) url) in *.
    destruct (classify parse o) eqn:Hclass; rewrite Hstep; clear Hstep.
    + done.
    + intros Hrest. apply IH in Hrest as (new & -> & Hshape). cbn [trace].
      exists ([EvFetch url o] ++ new). split; [by rewrite <- app_assoc|].
      rewrite all_attempts_app. intros [_ Hnew]%andb_true_iff.
      by rewrite fmap_app, Hshape.
    + match goal with
      | |- context [retry_loop parse world baseDelay re url maxRetries
                      (0 + 1) ?s1] =>
          destruct (retry_loop_bounds baseDelay re url maxRetries (0 + 1) s1)
            as (more & Hmore & _); [done|lia|];
          destruct (retry_loop parse world baseDelay re url maxRetries
                      (0 + 1) s1) as [[r1|] s2]
      end; [done|].
      cbn [snd trace] in Hmore.
      intros Hrest. apply IH in Hrest as (new & -> & _). rewrite Hmore.
      exists ([EvFetch url o] ++ more ++ new).
      split; [by rewrite <- !app_assoc|].
      rewrite all_attempts_app. cbn [all_attempts forallb]. rewrite Hclass.
      done.
    + done.
    + done.
Qed.

(** The executor reports a rate limit ([isRateLimited] truthy), which is
    what makes the caller put the account on cooldown, exactly when it
    made one request to each endpoint, in order, and each of them was
    answered with HTTP 429. *)
Theorem rate_limit_reported_iff urls maxRetries baseDelay re :
  0 ≤ baseDelay →
  truthy_flag
    (isRateLimited (execute parse world urls maxRetries baseDelay re initial).1)
  = true ↔
  action <$> trace (execute parse world urls maxRetries baseDelay re initial).2
  = DoFetch <$> urls ∧
  all_attempts parse RateLimited
    (trace (execute parse world urls maxRetries baseDelay re initial).2) = true.
Proof.
  intros Hbase.
  pose proof (endpoint_loop_flags parse world maxRetries baseDelay re urls
                initial (conj eq_refl eq_refl)) as [Hrl _].
  unfold execute, mbind, State_bind.
  destruct (endpoint_loop parse world maxRetries baseDelay re urls initial)
    as [[r|] s] eqn:Hloop; unfold mret, State_ret; cbn [fst snd] in *.
  - apply endpoint_loop_returned in Hloop as [Hflag Hfalse].
    rewrite Hflag, <- Hrl, Hfalse. split; [done|by intros [_ ?]].
  - apply endpoint_loop_one_attempt_each in Hloop as (new & Htr & Hshape);
      [|done].
    cbn in Htr. rewrite Htr in *. cbn [failure isRateLimited truthy_flag default].
    rewrite Hrl. split; [|by intros [_ ?]].
    intros Hall. split; [by apply Hshape|done].
Qed.

End ExecutorBounds.



Lemma execute_is_bounded_witness :
  (fetches (trace (execute parse_image
                     (world_all (FetchResponse 503 "busy"))
                     CLOUDCODE_FALLBACK_URLS 3 3000 [] initial).2)
   ≤ length CLOUDCODE_FALLBACK_URLS * 4)%nat.
Proof.
  refine (proj1 (execute_is_bounded parse_image
                   (world_all (FetchResponse 503 "busy"))
                   CLOUDCODE_FALLBACK_URLS 3 3000 [] _)).
  lia.
Defined.


(** ** Decoding the streamed response *)

Section DecodingProperties.

Variable JSON_parse : string → option GenerateContentResponse.
Variable raw : list Candidate → string.

Lemma image_of_decoded part img : image_of part = Some img → decoded_image img.
Proof.
  unfold image_of. destruct (part_inlineData part) as [[m d]|]; [|done].
  destruct (truthy (Some d)) eqn:Hd; [|done].
  destruct (String.prefix "image/" m) eqn:Hm; [|done].
  intros [= <-]. split_and!; [by apply truthy_Some_nonempty|done|done].
Qed.

Lemma error_text_nonempty (a b : string) : (a +:+ ": " +:+ b)%string ≠ ""%string.
Proof. by destruct a. Qed.

Lemma sse_lines_result lines allImages lastCandidates :
  Forall decoded_image allImages →
  isRateLimited (sse_lines JSON_parse raw lines allImages lastCandidates) = None ∧
  isCapacityError (sse_lines JSON_parse raw lines allImages lastCandidates) = None ∧
  (success (sse_lines JSON_parse raw lines allImages lastCandidates) = true →
   error (sse_lines JSON_parse raw lines allImages lastCandidates) = None ∧
   ∃ img imgs,
     Forall decoded_image (img :: imgs) ∧
     images (sse_lines JSON_parse raw lines allImages lastCandidates)
       = Some (img :: imgs) ∧
     imageData (sse_lines JSON_parse raw lines allImages lastCandidates)
       = Some img.1.1 ∧
     mimeType (sse_lines JSON_parse raw lines allImages lastCandidates)
       = Some img.1.2 ∧
     sizeBytes (sse_lines JSON_parse raw lines allImages lastCandidates)
       = Some img.2) ∧
  (success (sse_lines JSON_parse raw lines allImages lastCandidates) = false →
   imageData (sse_lines JSON_parse raw lines allImages lastCandidates) = None ∧
   ∃ msg, error (sse_lines JSON_parse raw lines allImages lastCandidates)
            = Some msg ∧ msg ≠ ""%string).
Proof.
  revert allImages lastCandidates.
  induction lines as [|line lines IH]; intros allImages lastCandidates Hall.
  - cbn [sse_lines]. unfold sse_result.
    destruct allImages as [|[[d m] sz] imgs].
    + split_and!; [done..| |]; [done|]. intros _. split; [done|].
      by eexists.
    + split_and!; [done..| |done]. intros _. split; [done|].
      by exists (d, m, sz), imgs.
  - cbn [sse_lines].
    destruct (negb (String.prefix "data: " line)); [by apply IH|]. cbv zeta.
    destruct (String.eqb (slice6 line) "[DONE]"); [by apply IH|].
    destruct (JSON_parse (slice6 line)) as [data|]; [|by apply IH].
    destruct (response_error data) as [e|].
    + split_and!; [done..| |]; [done|]. intros _. split; [done|].
      eexists. split; [reflexivity|]. apply error_text_nonempty.
    + apply IH. apply Forall_app. split; [done|].
      apply Forall_forall. intros img (part & _ & Himg)%list_elem_of_omap.
      by eapply image_of_decoded.
Qed.

(** What [parseSSEResponse] returns is either a success with the images
    it found, the first of them repeated in [imageData], [mimeType] and
    [sizeBytes], each with data that is not empty and an image type; or a
    failure with an error text that is not empty and no image data.  It
    never sets the rate-limit or capacity flag, and its [success] alone
    decides the test [result.success && result.imageData]. *)
Theorem parseSSEResponse_result text :
  isRateLimited (parseSSEResponse JSON_parse raw text) = None ∧
  isCapacityError (parseSSEResponse JSON_parse raw text) = None ∧
  success (parseSSEResponse JSON_parse raw text)
  && truthy (imageData (parseSSEResponse JSON_parse raw text))
  = success (parseSSEResponse JSON_parse raw text) ∧
  (success (parseSSEResponse JSON_parse raw text) = true →
   error (parseSSEResponse JSON_parse raw text) = None ∧
   ∃ img imgs,
     Forall decoded_image (img :: imgs) ∧
     images (parseSSEResponse JSON_parse raw text) = Some (img :: imgs) ∧
     imageData (parseSSEResponse JSON_parse raw text) = Some img.1.1 ∧
     mimeType (parseSSEResponse JSON_parse raw text) = Some img.1.2 ∧
     sizeBytes (parseSSEResponse JSON_parse raw text) = Some img.2) ∧
  (success (parseSSEResponse JSON_parse raw text) = false →
   imageData (parseSSEResponse JSON_parse raw text) = None ∧
   ∃ msg, error (parseSSEResponse JSON_parse raw text) = Some msg ∧
          msg ≠ ""%string).
Proof.
  unfold parseSSEResponse.
  destruct (sse_lines_result (split_lines text) [] None)
    as (Hrl & Hcap & Hok & Hfail); [constructor|].
  split_and!; [done|done| |done|done].
  destruct (success _) eqn:Hs; [|done].
  destruct (Hok eq_refl) as (_ & img & imgs & Hdec & _ & -> & _).
  apply Forall_cons in Hdec as [(Hd & _) _]. cbn.
  by apply truthy_Some_nonempty.
Qed.

(** The first line that carries an error decides the result: the images
    of the lines before it are dropped and the lines after it are not
    read. *)
Theorem parseSSEResponse_first_error text before line after e :
  split_lines text = before ++ line :: after →
  is_error_line JSON_parse line e →
  (∀ l e', l ∈ before → ¬ is_error_line JSON_parse l e') →
  parseSSEResponse JSON_parse raw text
  = failure (pretty (code e) +:+ ": " +:+ message e) None None.
Proof.
  intros Hsplit (Hdata & Hdone & data & Hparse & Herr) Hbefore.
  unfold parseSSEResponse. rewrite Hsplit. clear Hsplit.
  generalize (@nil (string * string * Z)) (@None (list Candidate)).
  induction before as [|l before IH]; intros allImages lastCandidates.
  - cbn [app sse_lines]. rewrite Hdata. cbn [negb]. cbv zeta.
    apply String.eqb_neq in Hdone. by rewrite Hdone, Hparse, Herr.
  - cbn [app sse_lines].
    assert (∀ e', ¬ is_error_line JSON_parse l e') as Hl
      by (intros e'; apply Hbefore, list_elem_of_here).
    assert (∀ l' e', l' ∈ before → ¬ is_error_line JSON_parse l' e') as Hrest
      by (intros l' e' Hin; by apply Hbefore, list_elem_of_further).
    destruct (String.prefix "data: " l) eqn:Hp; cbn [negb]; [|by apply IH].
    cbv zeta.
    destruct (String.eqb_spec (slice6 l) "[DONE]") as [|Hnd]; [by apply IH|].
    destruct (JSON_parse (slice6 l)) as [d|] eqn:Hd; [|by apply IH].
    destruct (response_error d) as [e'|] eqn:He; [|by apply IH].
    destruct (Hl e'). split_and!; [done..|]. by exists d.
Qed.

End DecodingProperties.

Lemma parseSSEResponse_first_error_witness :
  parseSSEResponse toy_JSON_parse (λ _, "raw"%string)
    ("data: aW1n" +:+ newline +:+ "data: E" +:+ newline +:+ "data: more")
  = failure "400: bad request" None None.
Proof.
  refine (parseSSEResponse_first_error toy_JSON_parse (λ _, "raw"%string)
            _ ["data: aW1n"%string] "data: E" ["data: more"%string]
            {| code := 400; message := "bad request";
               status := "INVALID_ARGUMENT" |} _ _ _).
  - reflexivity.
  - split_and!; [reflexivity|discriminate|]. by eexists.
  - intros l e' ->%list_elem_of_singleton (_ & _ & data & Hparse & Herr).
    vm_compute in Hparse. injection Hparse as <-. discriminate Herr.
Defined.

Example parse_stream :
  parseSSEResponse toy_JSON_parse (λ _, "raw"%string)
    ("event: x" +:+ newline +:+ "data: {" +:+ newline +:+ "data: aW1n"
     +:+ newline +:+ "data: [DONE]" +:+ newline)
  = with_referenceErrors_quota
      {| success := true; imagePath := None; imageData := Some "aW1n"%string;
         mimeType := Some "image/png"%string; sizeBytes := Some 3;
         images := Some [("aW1n", "image/png", 3)]%string; error := None;
         isRateLimited := None; isCapacityError := None;
         referenceErrors := None; quota := None;
         candidates := Some "raw"%string |} None None.
Proof. reflexivity. Qed.

Example split_lines_keeps_empty_lines :
  split_lines ("a" +:+ newline +:+ newline +:+ "b") = ["a"; ""; "b"]%string.
Proof. reflexivity. Qed.

Lemma failed_rotation_only_sets_cooldowns_witness :
  Forall2
    (λ a a',
       same_but_rateLimitedUntil a a' ∧
       (rateLimitedUntil a' = rateLimitedUntil a ∨
        (email a ∈ run_exclude
           (final (account_rotation clock_from_1000 gen_boom store_mixed)) ∧
         ∃ k, rateLimitedUntil a'
              = Some (clock_from_1000 k + RATE_LIMIT_COOLDOWN_MS))))
    (accounts store_mixed)
    (accounts (run_config
       (final (account_rotation clock_from_1000 gen_boom store_mixed)))).
Proof.
  apply (failed_rotation_only_sets_cooldowns clock_from_1000 gen_boom
           store_mixed).
  reflexivity.
Defined.

Lemma generated_marks_account_used_witness :
  success (gen_image 0 (mkAccount "user1" (Some 10) None None)) = true ∧
  truthy (imageData (gen_image 0 (mkAccount "user1" (Some 10) None None)))
    = true ∧
  (email (mkAccount "user1" (Some 10) None None)
   ∉ run_exclude (final (account_rotation clock_from_1000 gen_image store_mixed))) ∧
  ∃ a' k,
    find_account (email (mkAccount "user1" (Some 10) None None))
      (run_config (final (account_rotation clock_from_1000 gen_image store_mixed)))
      = Some a' ∧
    lastUsed a' = Some (clock_from_1000 k) ∧
    match quota (gen_image 0 (mkAccount "user1" (Some 10) None None)) with
    | Some q =>
        cachedImageQuota a' =
        Some {| remainingFraction := (remainingPercent q / 100)%Q;
                resetTime := Some (quotaResetTime q);
                updatedAt := clock_from_1000 (S k) |}
    | None => True
    end.
Proof.
  apply (generated_marks_account_used clock_from_1000 gen_image store_mixed).
  reflexivity.
Defined.

Example rotation_success_run :
  account_rotation clock_from_1000 gen_image store_mixed
  = Generated (mkAccount "user1" (Some 10) None None)
      (gen_image 0 (mkAccount "user1" (Some 10) None None))
      {| run_config :=
           {| accounts :=
                [ mkAccount "user1" (Some 1001) None
                    (Some {| remainingFraction := (40 / 100)%Q;
                             resetTime := Some "2026-03-01T00:00:00Z"%string;
                             updatedAt := 1002 |});
                  mkAccount "user2" None (Some 61000) None;
                  mkAccount "user3" (Some 30) None None;
                  mkAccount "user4" (Some 20) (Some 900) None ] |};
         run_disk :=
           Some {| accounts :=
                [ mkAccount "user1" (Some 1001) None
                    (Some {| remainingFraction := (40 / 100)%Q;
                             resetTime := Some "2026-03-01T00:00:00Z"%string;
                             updatedAt := 1002 |});
                  mkAccount "user2" None (Some 61000) None;
                  mkAccount "user3" (Some 30) None None;
                  mkAccount "user4" (Some 20) (Some 900) None ] |};
         run_reads := 3; run_exclude := []; run_errors := [] |}.
Proof. reflexivity. Qed.

Lemma rate_limit_reported_iff_witness :
  truthy_flag
    (isRateLimited
       (execute (parseSSEResponse toy_JSON_parse (λ _, "raw"%string))
          (world_all (FetchResponse 429 "slow down"))
          CLOUDCODE_FALLBACK_URLS 3 3000 [] initial).1)
  = true ↔
  action <$> trace
    (execute (parseSSEResponse toy_JSON_parse (λ _, "raw"%string))
       (world_all (FetchResponse 429 "slow down"))
       CLOUDCODE_FALLBACK_URLS 3 3000 [] initial).2
  = DoFetch <$> CLOUDCODE_FALLBACK_URLS ∧
  all_attempts (parseSSEResponse toy_JSON_parse (λ _, "raw"%string))
    RateLimited
    (trace (execute (parseSSEResponse toy_JSON_parse (λ _, "raw"%string))
              (world_all (FetchResponse 429 "slow down"))
              CLOUDCODE_FALLBACK_URLS 3 3000 [] initial).2) = true.
Proof.
  apply (rate_limit_reported_iff
           (parseSSEResponse toy_JSON_parse (λ _, "raw"%string))
           (world_all (FetchResponse 429 "slow down"))).
  - intros text. unfold parseSSEResponse.
    destruct (sse_lines_result toy_JSON_parse (λ _, "raw"%string)
                (split_lines text) [] None) as [-> _]; [constructor|].
    reflexivity.
  - lia.
Defined.
